(** * rag: command-line front end of the retrieval backend

    A shallow embedding of the command actions of [rag.go] and of
    [cmd/srag/health.go], and the properties of their error handling.

    The commands are glue around collaborators that live outside these two
    files (the [rag/v1] package, the OpenAI client, the JSON decoder, the
    file system).  Each collaborator is a field of a record of responses;
    every call to one is recorded in a trace, so that "what was called, in
    which order, with which arguments" is a statement about a list. *)

From Stdlib Require Import ZArith List String Bool Lia.
Import ListNotations.
Local Open Scope string_scope.
Local Open Scope list_scope.
Set Warnings "-register-all".

(* ================================================================== *)
(** * Part I: the embedding                                            *)
(* ================================================================== *)

(** ** Go error values *)

(** An [error] is a message made by [errors.New], the sentinel
    [http.ErrServerClosed], or an error wrapping another one.  The
    collaborators modelled here never hand out the walk-control sentinels
    [fs.SkipDir] and [fs.SkipAll], so these have no constructor. *)
Inductive error : Type :=
| errors_New (msg : string)
| http_ErrServerClosed
| errors_Wrap (cause : error) (msg : string).

Fixpoint error_eqb (a b : error) : bool :=
  match a, b with
  | errors_New m, errors_New n => String.eqb m n
  | http_ErrServerClosed, http_ErrServerClosed => true
  | errors_Wrap c m, errors_Wrap d n => error_eqb c d && String.eqb m n
  | _, _ => false
  end.

(** [errors.Is(err, target)]: compare, then unwrap and try again. *)
Fixpoint errors_Is (err target : error) : bool :=
  error_eqb err target
  || match err with
     | errors_Wrap cause _ => errors_Is cause target
     | _ => false
     end.

(** [err.Error()]. *)
Fixpoint Error (e : error) : string :=
  match e with
  | errors_New m => m
  | http_ErrServerClosed => "http: Server closed"
  | errors_Wrap c m => (m ++ ": " ++ Error c)%string
  end.

(** ** Data exchanged with the collaborators *)

(** A [float64] is its 64 bits; only the number of components of a vector
    is ever inspected. *)
Inductive float64 : Type := Float64 (bits : Z).

(** [openai.Embedding] and [openai.CreateEmbeddingResponse]. *)
Record openai_Embedding : Type := { Embedding : list float64 }.
Record CreateEmbeddingResponse : Type := { Data : list openai_Embedding }.

(** [openai.CompletionChoice] and [openai.Completion]. *)
Record CompletionChoice : Type := { Text : string }.
Record Completion : Type := { Choices : list CompletionChoice }.

Inductive EncodingFormat : Type := EncodingFormatFloat | EncodingFormatBase64.

Record EmbeddingNewParams : Type := {
  Input : string;
  Model : string;
  EncodingFormat_ : EncodingFormat
}.

Record CompletionNewParams : Type := {
  CompletionModel : string;
  Prompt : string
}.

(** [rag.RerankRequest]. *)
Record RerankRequest : Type := {
  RerankModel : string;
  Query : string;
  Documents : list string;
  TopN : Z
}.

(** Modelled from the spec: the [rag.Document] and chunk record types of
    package [rag/v1], which is not part of the two files: "a raw-document
    reference plus an ordered list of chunk records (chunk_index, text)". *)
Record Chunk : Type := { ChunkIndex : Z; ChunkText : string }.
Record Document : Type := { RawDocument : string; Chunks : list Chunk }.

(** ** Traces *)

Inductive event : Type :=
| EvOpenDB (dsn : string)
| EvDB
| EvPing
| EvEmbeddingsNew (base_url : string) (params : EmbeddingNewParams)
| EvRerank (base_url : string) (req : RerankRequest)
| EvCompletionsNew (base_url : string) (params : CompletionNewParams)
| EvGlobCompile (pattern : string)
| EvReadFile (path : string)
| EvUpsertDocumentChunks (path : string) (doc : Document)
| EvComputeEmbeddings (skip_existing : bool)
| EvGetDocumentChunk (id : string)
| EvStart (bind : string)
| EvPrintln (line : string).

Definition trace : Type := list event.

(** ** Actions

    What running a piece of Go code can end in: it returns a value, it
    returns a non-nil [error], or it panics.  An [action] runs from the
    trace so far and extends it. *)
Inductive outcome (A : Type) : Type :=
| Returned (a : A)
| Failed (e : error)
| Panicked.
Arguments Returned {A} a.
Arguments Failed {A} e.
Arguments Panicked {A}.

Definition action (A : Type) : Type := trace -> trace * outcome A.

Definition ret {A} (a : A) : action A := fun tr => (tr, Returned a).

Definition fail {A} (e : error) : action A := fun tr => (tr, Failed e).

Definition panic {A} : action A := fun tr => (tr, Panicked).

Definition bind {A B} (c : action A) (k : A -> action B) : action B :=
  fun tr =>
    match c tr with
    | (tr', Returned a) => k a tr'
    | (tr', Failed e) => (tr', Failed e)
    | (tr', Panicked) => (tr', Panicked)
    end.

Declare Scope action_scope.
Delimit Scope action_scope with action.
Notation "x <- c ;; k" := (bind c (fun x => k))
  (at level 61, c at next level, right associativity) : action_scope.
Notation "c ;;; k" := (bind c (fun _ => k))
  (at level 61, right associativity) : action_scope.
Local Open Scope action_scope.

(** A call [v, err := f(...)] followed by [if err != nil { return err }]. *)
Definition call {A} (ev : event) (r : error + A) : action A :=
  fun tr => (tr ++ [ev],
             match r with inl e => Failed e | inr a => Returned a end).

(** The same for a collaborator whose answer depends on what happened
    before (the database). *)
Definition call_h {A} (ev : event) (r : trace -> error + A) : action A :=
  fun tr => (tr ++ [ev],
             match r tr with inl e => Failed e | inr a => Returned a end).

(** A call [err := f(...)] followed by [if err != nil { return err }]. *)
Definition check (ev : event) (r : option error) : action unit :=
  call ev (match r with Some e => inl e | None => inr tt end).

(** A call returning only an [error], as the last statement:
    [return f(...)]. *)
Definition check_h (ev : event) (r : trace -> option error) : action unit :=
  call_h ev (fun tr => match r tr with Some e => inl e | None => inr tt end).

Definition emit (ev : event) : action unit :=
  fun tr => (tr ++ [ev], Returned tt).

(** [if cond { return errors.New(msg) }]. *)
Definition reject_if (cond : bool) (msg : string) : action unit :=
  if cond then fail (errors_New msg) else ret tt.

(** Running a command from an empty trace. *)
Definition run {A} (c : action A) : trace * outcome A := c [].

(** ** health (cmd/srag/health.go) *)

(** [*sql.DB] and [*gorm.DB], each by what its one method used here
    answers. *)
Record sql_DB : Type := { Ping : option error }.
Record gorm_DB : Type := { DB : error + sql_DB }.

Record HealthDeps : Type := {
  rag_OpenDB : string -> error + gorm_DB;
  Embeddings_New : string -> EmbeddingNewParams -> error + CreateEmbeddingResponse;
  Rerank : string -> RerankRequest -> option error;
  Completions_New : string -> CompletionNewParams -> error + Completion
}.

(** The values of the flags of [health], [command.String(name)]. *)
Record HealthFlags : Type := {
  dsn : string;
  embedding_base_url : string;
  embedding_model : string;
  reranker_base_url : string;
  reranker_model : string;
  assistant_base_url : string;
  assistant_model : string
}.

(** [len(resp.Data) == 0 || len(resp.Data[0].Embedding) == 0]; the right
    operand is only evaluated when there is a first element. *)
Definition embedding_response_empty (resp : CreateEmbeddingResponse) : bool :=
  (List.length (Data resp) =? 0)%nat
  || match Data resp with
     | [] => true
     | d0 :: _ => (List.length (Embedding d0) =? 0)%nat
     end.

(** [len(resp.Choices) == 0 || len(resp.Choices[0].Text) == 0]. *)
Definition completion_response_empty (resp : Completion) : bool :=
  (List.length (Choices resp) =? 0)%nat
  || match Choices resp with
     | [] => true
     | c0 :: _ => (String.length (Text c0) =? 0)%nat
     end.

Definition embedding_canary (model : string) : EmbeddingNewParams :=
  {| Input := "Hello world";
     Model := model;
     EncodingFormat_ := EncodingFormatBase64 |}.

Definition reranker_canary (model : string) : RerankRequest :=
  {| RerankModel := model;
     Query := "Where is Munich?";
     Documents := ["Munich is in Germany."; "The sky is blue."];
     TopN := 3 |}.

Definition completion_canary (model : string) : CompletionNewParams :=
  {| CompletionModel := model; Prompt := "Hello world" |}.

Definition health_ok_line : string :=
  "OK, database/embedding/reranker/assistant are operational".

Definition healthCmd (deps : HealthDeps) (command : HealthFlags) : action unit :=
  reject_if (dsn command =? "") "dsn is required" ;;;
  db <- call (EvOpenDB (dsn command)) (rag_OpenDB deps (dsn command)) ;;
  rawDB <- call EvDB (DB db) ;;
  check EvPing (Ping rawDB) ;;;
  let embeddingBaseURL := embedding_base_url command in
  reject_if (embeddingBaseURL =? "") "embedding-base-url is required" ;;;
  let embeddingModel := embedding_model command in
  reject_if (embeddingModel =? "") "embedding-model is required" ;;;
  embeddingResponse <-
    call (EvEmbeddingsNew embeddingBaseURL (embedding_canary embeddingModel))
         (Embeddings_New deps embeddingBaseURL (embedding_canary embeddingModel)) ;;
  reject_if (embedding_response_empty embeddingResponse) "empty response" ;;;
  let rerankerBaseURL := reranker_base_url command in
  reject_if (rerankerBaseURL =? "") "reranker-base-url is required" ;;;
  let rerankerModel := reranker_model command in
  reject_if (rerankerModel =? "") "reranker-model is required" ;;;
  check (EvRerank rerankerBaseURL (reranker_canary rerankerModel))
        (Rerank deps rerankerBaseURL (reranker_canary rerankerModel)) ;;;
  let assistantBaseURL := assistant_base_url command in
  reject_if (assistantBaseURL =? "") "assistant-base-url is required" ;;;
  let assistantModel := assistant_model command in
  reject_if (assistantModel =? "") "assistant-model is required" ;;;
  assistantResponse <-
    call (EvCompletionsNew assistantBaseURL (completion_canary assistantModel))
         (Completions_New deps assistantBaseURL (completion_canary assistantModel)) ;;
  reject_if (completion_response_empty assistantResponse) "empty response" ;;;
  emit (EvPrintln health_ok_line).

(** ** The collaborators of the commands of rag.go *)

(** [rag.Chunk], by the fields the commands read ([search] prints [ID],
    [RawDocument] and [ChunkID]; [get] prints [Text]). *)
Record rag_Chunk : Type := {
  ID : string;
  Chunk_RawDocument : string;
  ChunkID : Z;
  Chunk_Text : string
}.

(** JSON values, as the decoder sees the bytes of a file once they are
    lexed. *)
Inductive json : Type :=
| JNull
| JBool (b : bool)
| JNumber (n : Z)
| JString (s : string)
| JArray (items : list json)
| JObject (members : list (string * json)).

(** A file system entry (an [fs.DirEntry] with what [os.ReadFile] or
    [os.ReadDir] answers for it).  A directory lists its entries in the
    order [os.ReadDir] returns them, with the error it may return next to
    them. *)
Inductive node : Type :=
| FileNode (name : string) (content : error + string)
| DirNode (name : string) (entries : list node) (readdir_err : option error).

Definition Name (d : node) : string :=
  match d with
  | FileNode name _ => name
  | DirNode name _ _ => name
  end.

Definition IsDir (d : node) : bool :=
  match d with
  | FileNode _ _ => false
  | DirNode _ _ _ => true
  end.

Inductive DocumentField : Type := FieldRawDocument | FieldChunks.
Inductive ChunkField : Type := FieldChunkIndex | FieldText.

(** Modelled from the spec: which JSON object key names which field of
    [rag.Document] and of its chunk records; the struct declarations and
    their json tags are in package [rag/v1], outside the two files.  A key
    that resolves to [None] is a field "not in the Document schema". *)
Record Schema : Type := {
  document_key : string -> option DocumentField;
  chunk_key : string -> option ChunkField
}.

Record RagDeps : Type := {
  OpenDB : string -> error + gorm_DB;
  Start : string -> option error;
  glob_Compile : string -> error + (string -> bool);
  Lstat : string -> error + node;
  json_lex : string -> error + json;
  schema : Schema;
  UpsertDocumentChunks : trace -> Document -> option error;
  ComputeEmbeddings : bool -> option error;
  QueryDocuments : string -> Z -> error + list rag_Chunk;
  table_Render : list (string * string * Z) -> string;
  GetDocumentChunk : string -> option rag_Chunk * option error
}.

(** ** serve *)

Record ServeFlags : Type := {
  serve_bind : string;
  serve_dsn : string;
  serve_base_url : string;
  serve_model : string
}.

(** The part of [serve] that runs on the calling goroutine: open the
    database, start the server, and judge what [Start] returned. *)
Definition serveCmd (deps : RagDeps) (command : ServeFlags) : action unit :=
  db <- call (EvOpenDB (serve_dsn command)) (OpenDB deps (serve_dsn command)) ;;
  let err := Start deps (serve_bind command) in
  emit (EvStart (serve_bind command)) ;;;
  match err with
  | None => ret tt
  | Some e => if errors_Is e http_ErrServerClosed then ret tt else fail e
  end.


(** A [context.Context], by its deadline. *)
Record context : Type := { Deadline : option Z }.










(** ** scan *)

Record ScanFlags : Type := {
  scan_path : string;
  scan_glob : string;
  scan_dsn : string
}.

(** The decoder, [json.NewDecoder(bytes.NewReader(buf))], and its
    switch. *)
Record Decoder : Type := {
  decoder_input : string;
  disallowUnknownFields : bool
}.

Definition json_NewDecoder (buf : string) : Decoder :=
  {| decoder_input := buf; disallowUnknownFields := false |}.

Definition DisallowUnknownFields (d : Decoder) : Decoder :=
  {| decoder_input := decoder_input d; disallowUnknownFields := true |}.

(** The key of the message is printed with [%q], between double quotes
    (the character of code 34). *)
Definition double_quote : string := String (Ascii.ascii_of_nat 34) EmptyString.

Definition unknown_field (key : string) : error :=
  errors_New ("json: unknown field " ++ double_quote ++ key ++ double_quote)%string.

Definition cannot_unmarshal (into : string) : error :=
  errors_New ("json: cannot unmarshal value into Go value of type " ++ into)%string.

(** Filling a chunk record from the members of a JSON object, in the
    order they are written. *)
Fixpoint decode_chunk_members (strict : bool) (sch : Schema)
    (ms : list (string * json)) (c : Chunk) : error + Chunk :=
  match ms with
  | [] => inr c
  | (key, v) :: rest =>
      match chunk_key sch key with
      | None =>
          if strict then inl (unknown_field key)
          else decode_chunk_members strict sch rest c
      | Some FieldChunkIndex =>
          match v with
          | JNumber n =>
              decode_chunk_members strict sch rest
                {| ChunkIndex := n; ChunkText := ChunkText c |}
          | JNull => decode_chunk_members strict sch rest c
          | _ => inl (cannot_unmarshal "int")
          end
      | Some FieldText =>
          match v with
          | JString s =>
              decode_chunk_members strict sch rest
                {| ChunkIndex := ChunkIndex c; ChunkText := s |}
          | JNull => decode_chunk_members strict sch rest c
          | _ => inl (cannot_unmarshal "string")
          end
      end
  end.

Definition decode_chunk (strict : bool) (sch : Schema) (j : json) : error + Chunk :=
  match j with
  | JObject ms =>
      decode_chunk_members strict sch ms {| ChunkIndex := 0; ChunkText := "" |}
  | JNull => inr {| ChunkIndex := 0; ChunkText := "" |}
  | _ => inl (cannot_unmarshal "rag.Chunk")
  end.

Fixpoint decode_chunks (strict : bool) (sch : Schema) (items : list json)
    : error + list Chunk :=
  match items with
  | [] => inr []
  | j :: rest =>
      match decode_chunk strict sch j with
      | inl e => inl e
      | inr c =>
          match decode_chunks strict sch rest with
          | inl e => inl e
          | inr cs => inr (c :: cs)
          end
      end
  end.

Fixpoint decode_document_members (strict : bool) (sch : Schema)
    (ms : list (string * json)) (doc : Document) : error + Document :=
  match ms with
  | [] => inr doc
  | (key, v) :: rest =>
      match document_key sch key with
      | None =>
          if strict then inl (unknown_field key)
          else decode_document_members strict sch rest doc
      | Some FieldRawDocument =>
          match v with
          | JString s =>
              decode_document_members strict sch rest
                {| RawDocument := s; Chunks := Chunks doc |}
          | JNull => decode_document_members strict sch rest doc
          | _ => inl (cannot_unmarshal "string")
          end
      | Some FieldChunks =>
          match v with
          | JArray items =>
              match decode_chunks strict sch items with
              | inl e => inl e
              | inr cs =>
                  decode_document_members strict sch rest
                    {| RawDocument := RawDocument doc; Chunks := cs |}
              end
          | JNull => decode_document_members strict sch rest doc
          | _ => inl (cannot_unmarshal "[]rag.Chunk")
          end
      end
  end.

Definition decode_document (strict : bool) (sch : Schema) (j : json)
    : error + Document :=
  match j with
  | JObject ms =>
      decode_document_members strict sch ms {| RawDocument := ""; Chunks := [] |}
  | JNull => inr {| RawDocument := ""; Chunks := [] |}
  | _ => inl (cannot_unmarshal "rag.Document")
  end.

(** [decoder.Decode(&chunks)] with [var chunks rag.Document]. *)
Definition Decode (deps : RagDeps) (d : Decoder) : error + Document :=
  match json_lex deps (decoder_input d) with
  | inl e => inl e
  | inr j => decode_document (disallowUnknownFields d) (schema deps) j
  end.

(** A value and an error that come from a computation with no call to a
    collaborator in it. *)
Definition of_result {A} (r : error + A) : action A :=
  fun tr => (tr, match r with inl e => Failed e | inr a => Returned a end).

(** The function [scan] hands to [filepath.WalkDir].  [d] is [None] for
    the nil [fs.DirEntry] that comes with an error on the root. *)
Definition scan_visit (deps : RagDeps) (g : string -> bool)
    (path : string) (d : option node) (err : option error) : action unit :=
  match err with
  | Some e => fail e
  | None =>
      match d with
      | None => panic
      | Some (DirNode _ _ _) => ret tt
      | Some (FileNode name content) =>
          if negb (g name) then ret tt
          else
            buf <- call (EvReadFile path) content ;;
            let decoder := json_NewDecoder buf in
            let decoder := DisallowUnknownFields decoder in
            chunks <- of_result (Decode deps decoder) ;;
            check_h (EvUpsertDocumentChunks path chunks)
                    (fun tr => UpsertDocumentChunks deps tr chunks)
      end
  end.

Definition Join (dir name : string) : string := (dir ++ "/" ++ name)%string.

(** The loop [for _, d1 := range dirs] of a walk: each entry in turn,
    under the path of the directory joined with its name. *)
Definition walk_entries (walk : string -> node -> action unit) (path : string)
    : list node -> action unit :=
  fix each (ds : list node) : action unit :=
    match ds with
    | [] => ret tt
    | d1 :: rest => walk (Join path (Name d1)) d1 ;;; each rest
    end.

(** [filepath.WalkDir], for a function that never answers [fs.SkipDir] or
    [fs.SkipAll]: the function is called on the entry; on a directory, a
    second time when reading it failed; then the entries are walked in
    order.  The first error ends the walk. *)
Fixpoint walkDir (fn : string -> option node -> option error -> action unit)
    (path : string) (d : node) {struct d} : action unit :=
  match d with
  | FileNode _ _ => fn path (Some d) None
  | DirNode _ entries readdir_err =>
      fn path (Some d) None ;;;
      match readdir_err with
      | Some e => fn path (Some d) (Some e)
      | None => ret tt
      end ;;;
      walk_entries (walkDir fn) path entries
  end.

Definition filepath_WalkDir (lstat : error + node) (root : string)
    (fn : string -> option node -> option error -> action unit) : action unit :=
  match lstat with
  | inl e => fn root None (Some e)
  | inr d => walkDir fn root d
  end.

Definition scanCmd (deps : RagDeps) (command : ScanFlags) : action unit :=
  let path := scan_path command in
  reject_if (path =? "") "path is required" ;;;
  g <- call (EvGlobCompile (scan_glob command))
            (glob_Compile deps (scan_glob command)) ;;
  db <- call (EvOpenDB (scan_dsn command)) (OpenDB deps (scan_dsn command)) ;;
  filepath_WalkDir (Lstat deps path) path (scan_visit deps g).

(** ** compute *)

(** [force_given] is what the command line says about [--force], if
    anything; the flag is declared with [Value: false]. *)
Record ComputeFlags : Type := {
  compute_dsn : string;
  compute_base_url : string;
  compute_model : string;
  force_given : option bool
}.

Definition command_Bool_force (command : ComputeFlags) : bool :=
  match force_given command with
  | Some b => b
  | None => false
  end.

Definition computeCmd (deps : RagDeps) (command : ComputeFlags) : action unit :=
  let force := command_Bool_force command in
  db <- call (EvOpenDB (compute_dsn command)) (OpenDB deps (compute_dsn command)) ;;
  check (EvComputeEmbeddings (negb force)) (ComputeEmbeddings deps (negb force)).

(** ** search *)

Record SearchFlags : Type := {
  search_query : string;
  search_dsn : string;
  search_limit : Z
}.

Definition searchCmd (deps : RagDeps) (command : SearchFlags) : action unit :=
  let query := search_query command in
  reject_if (query =? "") "query is required" ;;;
  db <- call (EvOpenDB (search_dsn command)) (OpenDB deps (search_dsn command)) ;;
  chunks <- of_result (QueryDocuments deps query (search_limit command)) ;;
  emit (EvPrintln
          (table_Render deps
             (map (fun c => (ID c, Chunk_RawDocument c, ChunkID c)) chunks))).

(** ** get *)

Record GetFlags : Type := {
  get_id : string;
  get_dsn : string
}.

(** [c, err := r.GetDocumentChunk(id)]: [c] is a pointer, [None] when
    nil; [err] is assigned and never read. *)
Definition getChunkCmd (deps : RagDeps) (command : GetFlags) : action unit :=
  let id := get_id command in
  reject_if (id =? "") "id is required" ;;;
  db <- call (EvOpenDB (get_dsn command)) (OpenDB deps (get_dsn command)) ;;
  let (c, err) := GetDocumentChunk deps id in
  emit (EvGetDocumentChunk id) ;;;
  match c with
  | None => panic
  | Some chunk => emit (EvPrintln (Chunk_Text chunk))
  end.

(** ** main *)

Record log_entry : Type := {
  log_level : string;
  log_err : error;
  log_msg : string
}.

(** How the process ends: what was logged, and its exit status. *)
Record process_end : Type := {
  logged : list log_entry;
  exit_status : Z
}.

(** [err := cmd.Run(ctx, os.Args)], then the [if err != nil] that logs,
    then the end of [main].  A Go program whose [main] returns ends with
    status 0; one that panics ends with status 2. *)
Definition main (cmd_Run : outcome unit) : process_end :=
  match cmd_Run with
  | Returned _ => {| logged := []; exit_status := 0 |}
  | Failed err =>
      {| logged := [ {| log_level := "error";
                        log_err := err;
                        log_msg := "Unexpected error" |} ];
         exit_status := 0 |}
  | Panicked => {| logged := []; exit_status := 2 |}
  end.

(** ** Notions used to state the properties *)

(** *** health: dependencies and their checks *)

Inductive dependency : Type :=
| Storage
| EmbeddingService
| RerankerService
| CompletionService.

Definition dependency_eqb (a b : dependency) : bool :=
  match a, b with
  | Storage, Storage
  | EmbeddingService, EmbeddingService
  | RerankerService, RerankerService
  | CompletionService, CompletionService => true
  | _, _ => false
  end.

Definition probe_order : list dependency :=
  [Storage; EmbeddingService; RerankerService; CompletionService].

Definition rank (d : dependency) : nat :=
  match d with
  | Storage => 1
  | EmbeddingService => 2
  | RerankerService => 3
  | CompletionService => 4
  end.

(** The dependency an event contacts. *)
Definition dependency_of (ev : event) : option dependency :=
  match ev with
  | EvOpenDB _ | EvDB | EvPing => Some Storage
  | EvEmbeddingsNew _ _ => Some EmbeddingService
  | EvRerank _ _ => Some RerankerService
  | EvCompletionsNew _ _ => Some CompletionService
  | _ => None
  end.

(** The dependencies a trace contacts, in order, a run of contacts of the
    same dependency counted once. *)
Fixpoint probed (tr : trace) : list dependency :=
  match tr with
  | [] => []
  | ev :: rest =>
      match dependency_of ev with
      | None => probed rest
      | Some d =>
          match probed rest with
          | [] => [d]
          | d' :: ds => if dependency_eqb d d' then d' :: ds else d :: d' :: ds
          end
      end
  end.

(** What it is for each of the four checks to pass, read off the answers
    of the collaborators. *)
Definition storage_passes (deps : HealthDeps) (f : HealthFlags) : bool :=
  negb (dsn f =? "")
  && match rag_OpenDB deps (dsn f) with
     | inr db =>
         match DB db with
         | inr rawDB => match Ping rawDB with None => true | Some _ => false end
         | inl _ => false
         end
     | inl _ => false
     end.

Definition embedding_passes (deps : HealthDeps) (f : HealthFlags) : bool :=
  negb (embedding_base_url f =? "")
  && negb (embedding_model f =? "")
  && match Embeddings_New deps (embedding_base_url f)
             (embedding_canary (embedding_model f)) with
     | inr resp => negb (embedding_response_empty resp)
     | inl _ => false
     end.

Definition reranker_passes (deps : HealthDeps) (f : HealthFlags) : bool :=
  negb (reranker_base_url f =? "")
  && negb (reranker_model f =? "")
  && match Rerank deps (reranker_base_url f)
             (reranker_canary (reranker_model f)) with
     | None => true
     | Some _ => false
     end.

Definition completion_passes (deps : HealthDeps) (f : HealthFlags) : bool :=
  negb (assistant_base_url f =? "")
  && negb (assistant_model f =? "")
  && match Completions_New deps (assistant_base_url f)
             (completion_canary (assistant_model f)) with
     | inr resp => negb (completion_response_empty resp)
     | inl _ => false
     end.

(** The first dependency, in the order of the probe, whose check does not
    pass. *)
Definition first_failing (deps : HealthDeps) (f : HealthFlags) : option dependency :=
  if negb (storage_passes deps f) then Some Storage
  else if negb (embedding_passes deps f) then Some EmbeddingService
  else if negb (reranker_passes deps f) then Some RerankerService
  else if negb (completion_passes deps f) then Some CompletionService
  else None.

(** The events of a storage check that passes, and of the embedding call
    after it. *)
Definition storage_events (f : HealthFlags) : trace :=
  [EvOpenDB (dsn f); EvDB; EvPing].

Definition embedding_event (f : HealthFlags) : event :=
  EvEmbeddingsNew (embedding_base_url f) (embedding_canary (embedding_model f)).

Definition reranker_event (f : HealthFlags) : event :=
  EvRerank (reranker_base_url f) (reranker_canary (reranker_model f)).

Definition completion_event (f : HealthFlags) : event :=
  EvCompletionsNew (assistant_base_url f) (completion_canary (assistant_model f)).

(** Store, embedding and reranker pass, the completion endpoint is
    configured and its call fails with [e]. *)
Definition completion_unreachable (deps : HealthDeps) (f : HealthFlags)
    (e : error) : Prop :=
  storage_passes deps f = true
  /\ embedding_passes deps f = true
  /\ reranker_passes deps f = true
  /\ assistant_base_url f <> ""
  /\ assistant_model f <> ""
  /\ Completions_New deps (assistant_base_url f)
       (completion_canary (assistant_model f)) = inl e.

(** The error [health] returns carries a tag of the failing dependency:
    some reading [tag] of errors answers "completion" whenever the
    completion endpoint is the unreachable one, and never answers
    "completion" for a run in which an earlier dependency is the first to
    fail. *)
Definition completion_failure_tagged : Prop :=
  exists tag : error -> option dependency,
    (forall deps f e,
        completion_unreachable deps f e ->
        exists e', snd (run (healthCmd deps f)) = Failed e'
                   /\ tag e' = Some CompletionService)
    /\ (forall deps f e' d,
           snd (run (healthCmd deps f)) = Failed e' ->
           first_failing deps f = Some d ->
           d <> CompletionService ->
           tag e' <> Some CompletionService).

(** Some result of the response carries a vector that is not empty. *)
Definition has_nonempty_vector (resp : CreateEmbeddingResponse) : bool :=
  existsb (fun d => negb (List.length (Embedding d) =? 0)%nat) (Data resp).

(** *** scan: unknown fields, and the order of a walk *)

Definition chunk_has_unknown_field (sch : Schema) (j : json) : bool :=
  match j with
  | JObject ms =>
      existsb (fun m => match chunk_key sch (fst m) with
                        | None => true
                        | Some _ => false
                        end) ms
  | _ => false
  end.

(** The JSON document has a key that names no field: at the top, or in
    one of the chunk records of a member naming the chunk list. *)
Definition document_has_unknown_field (sch : Schema) (j : json) : bool :=
  match j with
  | JObject ms =>
      existsb (fun m => match document_key sch (fst m) with
                        | None => true
                        | Some FieldChunks =>
                            match snd m with
                            | JArray items =>
                                existsb (chunk_has_unknown_field sch) items
                            | _ => false
                            end
                        | Some FieldRawDocument => false
                        end) ms
  | _ => false
  end.

(** One call of the walk function: its three arguments. *)
Definition visit : Type := (string * option node * option error)%type.

Definition visit_path (v : visit) : string := fst (fst v).

(** The calls a walk makes when none of them fails, in order. *)
Fixpoint visits (path : string) (d : node) {struct d} : list visit :=
  match d with
  | FileNode _ _ => [(path, Some d, None)]
  | DirNode _ entries readdir_err =>
      (path, Some d, None)
      :: match readdir_err with
         | Some e => [(path, Some d, Some e)]
         | None => []
         end
      ++ flat_map (fun d1 => visits (Join path (Name d1)) d1) entries
  end.

(** Making the calls of a list one after the other, up to the first that
    does not return nil. *)
Fixpoint run_visits (fn : string -> option node -> option error -> action unit)
    (vs : list visit) : action unit :=
  match vs with
  | [] => ret tt
  | (path, d, err) :: rest => fn path d err ;;; run_visits fn rest
  end.

(** The error, if any, that reading, decoding or upserting a file gives
    when its turn comes after the trace [tr]. *)
Definition ingest_error (deps : RagDeps) (tr : trace) (path : string)
    (content : error + string) : option error :=
  match content with
  | inl e => Some e
  | inr buf =>
      match Decode deps (DisallowUnknownFields (json_NewDecoder buf)) with
      | inl e => Some e
      | inr doc => UpsertDocumentChunks deps (tr ++ [EvReadFile path]) doc
      end
  end.

(** The events that belong to the file at [path]. *)
Definition event_of_file (path : string) (ev : event) : Prop :=
  ev = EvReadFile path \/ exists doc, ev = EvUpsertDocumentChunks path doc.

(** The arguments with which [ComputeEmbeddings] was called. *)
Fixpoint sync_calls (tr : trace) : list bool :=
  match tr with
  | [] => []
  | EvComputeEmbeddings skip_existing :: rest => skip_existing :: sync_calls rest
  | _ :: rest => sync_calls rest
  end.

(** ** Concrete collaborators, for the examples *)

Definition sample_flags : HealthFlags :=
  {| dsn := "postgres://rag";
     embedding_base_url := "http://embed/v1";
     embedding_model := "bge-m3";
     reranker_base_url := "http://rerank";
     reranker_model := "bge-reranker";
     assistant_base_url := "http://llm/v1";
     assistant_model := "qwen" |}.

Definition healthy_db : gorm_DB := {| DB := inr {| Ping := None |} |}.

(** The bits of 1.0. *)
Definition one : float64 := Float64 4607182418800017408.

Definition one_vector : CreateEmbeddingResponse :=
  {| Data := [ {| Embedding := [one] |} ] |}.

Definition one_choice : Completion := {| Choices := [ {| Text := "Hi" |} ] |}.

Definition connection_refused : error := errors_New "connection refused".

Definition all_up : HealthDeps :=
  {| rag_OpenDB := fun _ => inr healthy_db;
     Embeddings_New := fun _ _ => inr one_vector;
     Rerank := fun _ _ => None;
     Completions_New := fun _ _ => inr one_choice |}.

Definition completion_down : HealthDeps :=
  {| rag_OpenDB := fun _ => inr healthy_db;
     Embeddings_New := fun _ _ => inr one_vector;
     Rerank := fun _ _ => None;
     Completions_New := fun _ _ => inl connection_refused |}.

Definition embedding_down : HealthDeps :=
  {| rag_OpenDB := fun _ => inr healthy_db;
     Embeddings_New := fun _ _ => inl connection_refused;
     Rerank := fun _ _ => None;
     Completions_New := fun _ _ => inr one_choice |}.

(** A response of two results, the first with no component, the second
    with one. *)
Definition second_vector_only : CreateEmbeddingResponse :=
  {| Data := [ {| Embedding := [] |}; {| Embedding := [one] |} ] |}.

Definition embedding_answers (resp : CreateEmbeddingResponse) : HealthDeps :=
  {| rag_OpenDB := fun _ => inr healthy_db;
     Embeddings_New := fun _ _ => inr resp;
     Rerank := fun _ _ => None;
     Completions_New := fun _ _ => inr one_choice |}.

(** The key names the spec gives the fields. *)
Definition spec_schema : Schema :=
  {| document_key := fun k =>
       if k =? "raw_document" then Some FieldRawDocument
       else if k =? "chunks" then Some FieldChunks
       else None;
     chunk_key := fun k =>
       if k =? "chunk_index" then Some FieldChunkIndex
       else if k =? "text" then Some FieldText
       else None |}.

(** Two descriptors: one as the schema has it, one with a member
    [author] on top. *)
Definition munich_json : json :=
  JObject [("raw_document", JString "d1.pdf");
           ("chunks",
            JArray [JObject [("chunk_index", JNumber 0);
                             ("text", JString "Munich is in Germany.")];
                    JObject [("chunk_index", JNumber 1);
                             ("text", JString "The sky is blue.")]])].

Definition author_json : json :=
  JObject [("raw_document", JString "d2.pdf");
           ("author", JString "nobody");
           ("chunks", JArray [])].

Definition munich_doc : Document :=
  {| RawDocument := "d1.pdf";
     Chunks := [ {| ChunkIndex := 0; ChunkText := "Munich is in Germany." |};
                 {| ChunkIndex := 1; ChunkText := "The sky is blue." |} ] |}.

(** The bytes of the files stand for themselves; the lexer of the
    examples knows these two. *)
Definition sample_lex (buf : string) : error + json :=
  if buf =? "munich" then inr munich_json
  else if buf =? "author" then inr author_json
  else inl (errors_New "unexpected end of JSON input").

(** The matcher of the pattern [*.chunks.json] on a file name. *)
Definition chunks_json (name : string) : bool :=
  let suffix := ".chunks.json" in
  (String.length suffix <=? String.length name)%nat
  && (substring (String.length name - String.length suffix)
                (String.length suffix) name =? suffix).

(** A directory [docs] with three files, read in this order. *)
Definition sample_tree : node :=
  DirNode "docs"
    [FileNode "a.chunks.json" (inr "munich");
     FileNode "b.chunks.json" (inr "author");
     FileNode "c.chunks.json" (inr "munich")]
    None.

Definition sample_chunk : rag_Chunk :=
  {| ID := "c1"; Chunk_RawDocument := "d1.pdf"; ChunkID := 0;
     Chunk_Text := "Munich is in Germany." |}.

Definition not_found : error := errors_New "record not found".

(** Collaborators that all answer well, but for what [Start] returns and
    what a lookup finds; the lookup knows the one id [c1]. *)
Definition sample_deps (start : option error) : RagDeps :=
  {| OpenDB := fun _ => inr healthy_db;
     Start := fun _ => start;
     glob_Compile := fun _ => inr chunks_json;
     Lstat := fun _ => inr sample_tree;
     json_lex := sample_lex;
     schema := spec_schema;
     UpsertDocumentChunks := fun _ _ => None;
     ComputeEmbeddings := fun _ => None;
     QueryDocuments := fun _ _ => inr [sample_chunk];
     table_Render := fun _ => "table";
     GetDocumentChunk := fun id =>
       if id =? "c1" then (Some sample_chunk, None)
       else (None, Some not_found) |}.

Definition sample_scan : ScanFlags :=
  {| scan_path := "docs"; scan_glob := "*.chunks.json"; scan_dsn := "postgres://rag" |}.

Definition scan_without_path : ScanFlags :=
  {| scan_path := ""; scan_glob := "*.chunks.json"; scan_dsn := "postgres://rag" |}.

Definition sample_serve : ServeFlags :=
  {| serve_bind := ":5000"; serve_dsn := "postgres://rag";
     serve_base_url := "http://embed/v1"; serve_model := "bge-m3" |}.

Definition sample_compute (force : option bool) : ComputeFlags :=
  {| compute_dsn := "postgres://rag"; compute_base_url := "http://embed/v1";
     compute_model := "bge-m3"; force_given := force |}.

Definition sample_get (id : string) : GetFlags :=
  {| get_id := id; get_dsn := "postgres://rag" |}.

(** ** Notions for the properties of the rest of the commands *)

(** The paths read, the paths upserted and the lines printed in a trace,
    in order. *)
Fixpoint read_paths (tr : trace) : list string :=
  match tr with
  | [] => []
  | EvReadFile path :: rest => path :: read_paths rest
  | _ :: rest => read_paths rest
  end.

Fixpoint upserted_paths (tr : trace) : list string :=
  match tr with
  | [] => []
  | EvUpsertDocumentChunks path _ :: rest => path :: upserted_paths rest
  | _ :: rest => upserted_paths rest
  end.

Fixpoint printed (tr : trace) : list string :=
  match tr with
  | [] => []
  | EvPrintln line :: rest => line :: printed rest
  | _ :: rest => printed rest
  end.

(** The call is for a file whose name the pattern matches. *)
Definition visit_matches (g : string -> bool) (v : visit) : bool :=
  match v with
  | (_, Some (FileNode name _), None) => g name
  | _ => false
  end.

Definition matched_paths (g : string -> bool) (vs : list visit) : list string :=
  map visit_path (filter (visit_matches g) vs).

(** An error under a pile of wrappers, the last message outermost. *)
Fixpoint wrap_all (e : error) (msgs : list string) : error :=
  match msgs with
  | [] => e
  | msg :: rest => errors_Wrap (wrap_all e rest) msg
  end.

(** ** Actions over another state

    [generate-script] writes to a writer and reads no database: its state
    is what was created and written.  The same three outcomes, over a
    state [St]. *)
Definition st_action (St A : Type) : Type := St -> St * outcome A.

Definition st_ret {St A} (a : A) : st_action St A := fun st => (st, Returned a).

Definition st_fail {St A} (e : error) : st_action St A := fun st => (st, Failed e).

Definition st_panic {St A} : st_action St A := fun st => (st, Panicked).

Definition st_bind {St A B} (c : st_action St A) (k : A -> st_action St B)
    : st_action St B :=
  fun st =>
    match c st with
    | (st', Returned a) => k a st'
    | (st', Failed e) => (st', Failed e)
    | (st', Panicked) => (st', Panicked)
    end.

Notation "x <~ c ;; k" := (st_bind c (fun x => k))
  (at level 61, c at next level, right associativity) : action_scope.
Notation "c ~;; k" := (st_bind c (fun _ => k))
  (at level 61, right associativity) : action_scope.

(** [filepath.WalkDir] again, for a function that acts on [St]. *)
Definition st_walk_entries {St} (walk : string -> node -> st_action St unit)
    (path : string) : list node -> st_action St unit :=
  fix each (ds : list node) : st_action St unit :=
    match ds with
    | [] => st_ret tt
    | d1 :: rest => walk (Join path (Name d1)) d1 ~;; each rest
    end.

Fixpoint st_walkDir {St}
    (fn : string -> option node -> option error -> st_action St unit)
    (path : string) (d : node) {struct d} : st_action St unit :=
  match d with
  | FileNode _ _ => fn path (Some d) None
  | DirNode _ entries readdir_err =>
      fn path (Some d) None ~;;
      match readdir_err with
      | Some e => fn path (Some d) (Some e)
      | None => st_ret tt
      end ~;;
      st_walk_entries (st_walkDir fn) path entries
  end.

Definition st_WalkDir {St} (lstat : error + node) (root : string)
    (fn : string -> option node -> option error -> st_action St unit)
    : st_action St unit :=
  match lstat with
  | inl e => fn root None (Some e)
  | inr d => st_walkDir fn root d
  end.

Fixpoint st_run_visits {St}
    (fn : string -> option node -> option error -> st_action St unit)
    (vs : list visit) : st_action St unit :=
  match vs with
  | [] => st_ret tt
  | (path, d, err) :: rest => fn path d err ~;; st_run_visits fn rest
  end.

(** ** generate-script (rag.go, the command declared first) *)

(** [strings.HasSuffix]:
    [len(s) >= len(suffix) && s[len(s)-len(suffix):] == suffix]. *)
Definition HasSuffix (s suffix : string) : bool :=
  (String.length suffix <=? String.length s)%nat
  && (substring (String.length s - String.length suffix)
                (String.length suffix) s =? suffix).

Definition newline : string := String (Ascii.ascii_of_nat 10) EmptyString.

(** The values of the argument and flags of [generate-script]; [output]
    is ["-"] and [shebang] is [true] when the command line leaves them
    out. *)
Record GenerateFlags : Type := {
  generate_path : string;
  rag_tools : string;
  output : string;
  shebang : bool;
  with_pueue : bool
}.

(** The [io.Writer] the script goes to. *)
Inductive writer : Type :=
| Stdout
| File (name : string).

(** What [generate-script] has done so far: the files it created, and the
    writes that succeeded, in order. *)
Record script_state : Type := {
  created : list string;
  written : list string
}.

(** The collaborators of [generate-script].  [Write] answers for one
    formatted write to the writer, given the writes before it;
    [filepath_Abs] and [filepath_Dir] are the functions of the standard
    library. *)
Record ScriptDeps : Type := {
  os_Create : string -> option error;
  Write : writer -> list string -> string -> option error;
  script_Lstat : string -> error + node;
  filepath_Abs : string -> error + string;
  filepath_Dir : string -> string
}.

(** [f, err := os.Create(outputPath)]. *)
Definition create (deps : ScriptDeps) (name : string) : st_action script_state writer :=
  fun st =>
    match os_Create deps name with
    | Some e => (st, Failed e)
    | None =>
        ({| created := created st ++ [name]; written := written st |},
         Returned (File name))
    end.

(** [_, err = fmt.Fprintf(w, ...)] (or [Fprintln]) followed by
    [if err != nil { return err }]: one write of the formatted text. *)
Definition write (deps : ScriptDeps) (w : writer) (text : string)
    : st_action script_state unit :=
  fun st =>
    match Write deps w (written st) text with
    | Some e => (st, Failed e)
    | None =>
        ({| created := created st; written := written st ++ [text] |},
         Returned tt)
    end.

Definition pueue_open : string := ("pueue add -- " ++ double_quote)%string.

Definition pueue_close : string := (double_quote ++ newline)%string.

(** [toolArg]: a blank, or [fmt.Sprintf(" --project %s ", toolPath)]. *)
Definition toolArg (toolPath : string) : string :=
  if toolPath =? "" then " " else (" --project " ++ toolPath ++ " ")%string.

(** The text of the [mineru] command for the file at [path] (absolute) in
    directory [baseDir]. *)
Definition mineru_command (toolPath path baseDir : string) : string :=
  ("uv run" ++ toolArg toolPath ++ "mineru --source modelscope -p '" ++ path
   ++ "' -o '" ++ baseDir ++ "'")%string.

(** The function [generate-script] hands to [filepath.WalkDir].  The
    chunking command that follows the [mineru] command in the source is
    formatted into [io.Discard], which sets [err] to nil and writes
    nowhere; the values only it uses ([fileName], [markdownFilePath],
    [ragCliPath]) have no effect. *)
Definition generate_visit (deps : ScriptDeps) (w : writer)
    (toolPath : string) (withPueue : bool)
    (path : string) (d : option node) (err : option error)
    : st_action script_state unit :=
  match err with
  | Some e => st_fail e
  | None =>
      match d with
      | None => st_panic
      | Some d =>
          if IsDir d then st_ret tt
          else if negb (HasSuffix path ".pdf")
                  || HasSuffix path "_layout.pdf"
                  || HasSuffix path "_origin.pdf"
                  || HasSuffix path "_span.pdf"
          then st_ret tt
          else
            match filepath_Abs deps path with
            | inl _ => st_panic
            | inr path =>
                let baseDir := filepath_Dir deps path in
                (if withPueue then write deps w pueue_open else st_ret tt) ~;;
                write deps w (mineru_command toolPath path baseDir) ~;;
                (if withPueue then write deps w pueue_close else st_ret tt)
            end
      end
  end.

Definition generateScriptCmd (deps : ScriptDeps) (command : GenerateFlags)
    : st_action script_state unit :=
  let withPueue := with_pueue command in
  let path := generate_path command in
  if path =? "" then st_fail (errors_New "path is required")
  else
    let toolPath := rag_tools command in
    w <~ (if output command =? "-" then st_ret Stdout
          else create deps (output command)) ;;
    (if shebang command then write deps w ("#!/bin/bash" ++ newline)%string
     else st_ret tt) ~;;
    write deps w ("trap 'exit' INT" ++ newline)%string ~;;
    st_WalkDir (script_Lstat deps path) path
      (generate_visit deps w toolPath withPueue) ~;;
    write deps w newline.

Definition nothing_done : script_state := {| created := []; written := [] |}.

(** *** What a run of [generate-script] is expected to write *)

(** The file of a call is one a command is written for. *)
Definition selected (v : visit) : bool :=
  match v with
  | (path, Some (FileNode _ _), None) =>
      HasSuffix path ".pdf"
      && negb (HasSuffix path "_layout.pdf")
      && negb (HasSuffix path "_origin.pdf")
      && negb (HasSuffix path "_span.pdf")
  | _ => false
  end.

(** The writes for one selected file whose absolute path is [abs]. *)
Definition command_writes (deps : ScriptDeps) (toolPath : string)
    (withPueue : bool) (abs : string) : list string :=
  (if withPueue then [pueue_open] else [])
  ++ [mineru_command toolPath abs (filepath_Dir deps abs)]
  ++ (if withPueue then [pueue_close] else []).

Definition visit_writes (deps : ScriptDeps) (toolPath : string)
    (withPueue : bool) (v : visit) : list string :=
  if selected v then
    match filepath_Abs deps (visit_path v) with
    | inr abs => command_writes deps toolPath withPueue abs
    | inl _ => []
    end
  else [].

Definition script_header (command : GenerateFlags) : list string :=
  (if shebang command then [("#!/bin/bash" ++ newline)%string] else [])
  ++ [("trap 'exit' INT" ++ newline)%string].

(** No call of the list comes with an error or without an entry, and
    every selected file has an absolute path. *)
Definition walk_is_clean (deps : ScriptDeps) (vs : list visit) : Prop :=
  Forall (fun v : visit =>
            snd v = None
            /\ snd (fst v) <> None
            /\ (selected v = true ->
                exists abs, filepath_Abs deps (visit_path v) = inr abs)) vs.

(** Collaborators for the examples of [generate-script]: every write
    succeeds, paths are made absolute under [/work], and the directory of
    a path is looked up among the two of the example. *)
Definition sample_script_deps : ScriptDeps :=
  {| os_Create := fun _ => None;
     Write := fun _ _ _ => None;
     script_Lstat := fun _ =>
       inr (DirNode "pdfs"
              [FileNode "a.pdf" (inr "");
               FileNode "a_layout.pdf" (inr "");
               FileNode "b.pdf" (inr "");
               FileNode "notes.txt" (inr "")]
              None);
     filepath_Abs := fun p => inr ("/work/" ++ p)%string;
     filepath_Dir := fun _ => "/work/pdfs" |}.

Definition disk_full : error := errors_New "no space left on device".

Definition sample_generate (pueue : bool) : GenerateFlags :=
  {| generate_path := "pdfs"; rag_tools := ""; output := "-";
     shebang := true; with_pueue := pueue |}.

(** Further collaborators and flag values for the examples. *)
Definition without_reranker_url : HealthFlags :=
  {| dsn := "postgres://rag";
     embedding_base_url := "http://embed/v1";
     embedding_model := "bge-m3";
     reranker_base_url := "";
     reranker_model := "bge-reranker";
     assistant_base_url := "http://llm/v1";
     assistant_model := "qwen" |}.

(** A directory whose listing fails after its first entry was read. *)
Definition unreadable_tree : node :=
  DirNode "docs"
    [FileNode "a.chunks.json" (inr "munich")]
    (Some (errors_New "permission denied")).

(** Collaborators of the commands of rag.go, by what opening the database
    and looking at the root answer. *)
Definition deps_with (open : error + gorm_DB) (lstat : error + node) : RagDeps :=
  {| OpenDB := fun _ => open;
     Start := fun _ => None;
     glob_Compile := fun _ => inr chunks_json;
     Lstat := fun _ => lstat;
     json_lex := sample_lex;
     schema := spec_schema;
     UpsertDocumentChunks := fun _ _ => None;
     ComputeEmbeddings := fun _ => None;
     QueryDocuments := fun _ _ => inr [];
     table_Render := fun _ => "table";
     GetDocumentChunk := fun _ => (None, Some not_found) |}.

(** A directory of two descriptors that decode. *)
Definition clean_tree : node :=
  DirNode "docs"
    [FileNode "a.chunks.json" (inr "munich");
     FileNode "readme.md" (inr "text");
     DirNode "sub" [FileNode "c.chunks.json" (inr "munich")] None]
    None.

Definition sample_search (query : string) : SearchFlags :=
  {| search_query := query; search_dsn := "postgres://rag"; search_limit := 3 |}.

(** Collaborators of [generate-script] whose writer fails once two writes
    were made, and ones for which no path can be made absolute. *)
Definition script_deps_disk_full : ScriptDeps :=
  {| os_Create := os_Create sample_script_deps;
     Write := fun _ before _ =>
       if (2 <=? List.length before)%nat then Some disk_full else None;
     script_Lstat := script_Lstat sample_script_deps;
     filepath_Abs := filepath_Abs sample_script_deps;
     filepath_Dir := filepath_Dir sample_script_deps |}.

Definition script_deps_no_cwd : ScriptDeps :=
  {| os_Create := os_Create sample_script_deps;
     Write := Write sample_script_deps;
     script_Lstat := script_Lstat sample_script_deps;
     filepath_Abs := fun _ => inl (errors_New "getwd: no such file or directory");
     filepath_Dir := filepath_Dir sample_script_deps |}.

(** Where an event of a walk of [scan] comes from: a read, from a file of
    the walk that the pattern matches; an upsert, from such a file that
    was read, with the document the decoder made of its content. *)
Definition scanned_from (deps : RagDeps) (g : string -> bool)
    (vs : list visit) (ev : event) : Prop :=
  match ev with
  | EvReadFile p =>
      exists name content,
        In (p, Some (FileNode name content), None) vs /\ g name = true
  | EvUpsertDocumentChunks p doc =>
      exists name buf,
        In (p, Some (FileNode name (inr buf)), None) vs
        /\ g name = true
        /\ Decode deps (DisallowUnknownFields (json_NewDecoder buf)) = inr doc
  | _ => False
  end.

(** An action of [generate-script] writes within [expected]: from any
    state it creates no file, what it adds to the writes is a beginning of
    [expected], and all of [expected] when it returns nil. *)
Definition writes_within (c : st_action script_state unit)
    (expected : list string) : Prop :=
  forall st, exists done rest,
    expected = done ++ rest
    /\ created (fst (c st)) = created st
    /\ written (fst (c st)) = written st ++ done
    /\ (snd (c st) = Returned tt -> rest = []).

(** The whole script of a run over the calls [vs]. *)
Definition script_of (deps : ScriptDeps) (command : GenerateFlags)
    (vs : list visit) : list string :=
  script_header command
  ++ flat_map (visit_writes deps (rag_tools command) (with_pueue command)) vs
  ++ [newline].

(** The calls of the walk of a run of [generate-script]: those of the
    root, or the one call that reports that the root cannot be looked
    at. *)
Definition walk_calls (deps : ScriptDeps) (command : GenerateFlags) : list visit :=
  match script_Lstat deps (generate_path command) with
  | inr root => visits (generate_path command) root
  | inl e => [(generate_path command, None, Some e)]
  end.

(** What [generate-script] does once its writer is chosen. *)
Definition generate_body (deps : ScriptDeps) (command : GenerateFlags)
    (w : writer) : st_action script_state unit :=
  (if shebang command then write deps w ("#!/bin/bash" ++ newline)%string
   else st_ret tt) ~;;
  write deps w ("trap 'exit' INT" ++ newline)%string ~;;
  st_WalkDir (script_Lstat deps (generate_path command)) (generate_path command)
    (generate_visit deps w (rag_tools command) (with_pueue command)) ~;;
  write deps w newline.

Definition sample_generate_to (file : string) : GenerateFlags :=
  {| generate_path := "pdfs"; rag_tools := "/opt/rag"; output := file;
     shebang := false; with_pueue := true |}.

(** Collaborators of [generate-script] for which no file can be
    created. *)
Definition script_deps_no_create : ScriptDeps :=
  {| os_Create := fun _ => Some disk_full;
     Write := Write sample_script_deps;
     script_Lstat := script_Lstat sample_script_deps;
     filepath_Abs := filepath_Abs sample_script_deps;
     filepath_Dir := filepath_Dir sample_script_deps |}.

(* ================================================================== *)
(** * Part II: properties                                              *)
(* ================================================================== *)

(** ** Running actions *)

(** Unfolding the combinators of a command. *)
Ltac unfold_action :=
  unfold run, bind, check, check_h, call, call_h, emit, reject_if,
    of_result, fail, ret, panic.

(** ** health *)

(** The next answer [health] depends on, in the order of the program. *)
Ltac health_step :=
  match goal with
  | |- context [dsn ?f =? ""] => destruct (dsn f =? "") eqn:?
  | |- context [rag_OpenDB ?d ?x] => destruct (rag_OpenDB d x) eqn:?
  | |- context [DB ?x] => destruct (DB x) eqn:?
  | |- context [Ping ?x] => destruct (Ping x) eqn:?
  | |- context [embedding_base_url ?f =? ""] =>
      destruct (embedding_base_url f =? "") eqn:?
  | |- context [embedding_model ?f =? ""] =>
      destruct (embedding_model f =? "") eqn:?
  | |- context [Embeddings_New ?d ?u ?p] => destruct (Embeddings_New d u p) eqn:?
  | |- context [embedding_response_empty ?r] =>
      destruct (embedding_response_empty r) eqn:?
  | |- context [reranker_base_url ?f =? ""] =>
      destruct (reranker_base_url f =? "") eqn:?
  | |- context [reranker_model ?f =? ""] =>
      destruct (reranker_model f =? "") eqn:?
  | |- context [Rerank ?d ?u ?p] => destruct (Rerank d u p) eqn:?
  | |- context [assistant_base_url ?f =? ""] =>
      destruct (assistant_base_url f =? "") eqn:?
  | |- context [assistant_model ?f =? ""] =>
      destruct (assistant_model f =? "") eqn:?
  | |- context [Completions_New ?d ?u ?p] => destruct (Completions_New d u p) eqn:?
  | |- context [completion_response_empty ?r] =>
      destruct (completion_response_empty r) eqn:?
  end; simpl.

Ltac unfold_health :=
  unfold first_failing, storage_passes, embedding_passes, reranker_passes,
    completion_passes, healthCmd, storage_events, embedding_event,
    reranker_event, completion_event;
  unfold_action; simpl.

Ltac prefix_of_order :=
  first [ exists 0; split; [lia | reflexivity]
        | exists 1; split; [lia | reflexivity]
        | exists 2; split; [lia | reflexivity]
        | exists 3; split; [lia | reflexivity]
        | exists 4; split; [lia | reflexivity] ].

Section Health.
Variable deps : HealthDeps.
Variable f : HealthFlags.

Lemma health_all_pass :
  first_failing deps f = None <->
  storage_passes deps f && embedding_passes deps f
  && reranker_passes deps f && completion_passes deps f = true.
Proof.
  unfold first_failing.
  destruct (storage_passes deps f), (embedding_passes deps f),
    (reranker_passes deps f), (completion_passes deps f);
    simpl; split; congruence.
Qed.

(** What a run of [health] comes to, by the first check that fails. *)
Lemma health_outcome :
  match first_failing deps f with
  | None =>
      run (healthCmd deps f)
      = (storage_events f
           ++ [embedding_event f; reranker_event f; completion_event f;
               EvPrintln health_ok_line],
         Returned tt)
  | Some d =>
      (exists e, snd (run (healthCmd deps f)) = Failed e)
      /\ exists n, n <= rank d
                   /\ probed (fst (run (healthCmd deps f))) = firstn n probe_order
  end.
Proof.
  unfold_health.
  repeat health_step;
    try reflexivity;
    (split; [eexists; reflexivity | prefix_of_order]).
Qed.
End Health.

(** C3.  [health] contacts its dependencies one after the other in the
    order storage, embedding, reranker, completion: the dependencies
    contacted in a run are always a beginning of that list.  It returns nil
    exactly when all four checks pass, and then all four were contacted;
    and when [d] is the first dependency whose check fails, the run returns
    an error and contacts nothing that comes after [d]. *)
Theorem health_sequential_fail_fast (deps : HealthDeps) (f : HealthFlags) :
  (exists n, probed (fst (run (healthCmd deps f))) = firstn n probe_order)
  /\ (snd (run (healthCmd deps f)) = Returned tt <->
      storage_passes deps f && embedding_passes deps f
      && reranker_passes deps f && completion_passes deps f = true)
  /\ (forall d, first_failing deps f = Some d ->
        (exists e, snd (run (healthCmd deps f)) = Failed e)
        /\ exists n, n <= rank d
                     /\ probed (fst (run (healthCmd deps f))) = firstn n probe_order)
  /\ (snd (run (healthCmd deps f)) = Returned tt ->
      probed (fst (run (healthCmd deps f))) = probe_order).
Proof.
  pose proof (health_outcome deps f) as H.
  pose proof (health_all_pass deps f) as Hall.
  destruct (first_failing deps f) as [d|].
  - destruct H as [[e He] [n [Hn Hp]]].
    split; [exists n; exact Hp|].
    split.
    + split; intros H.
      * rewrite He in H. discriminate.
      * apply Hall in H. discriminate.
    + split.
      * intros d' Hd. injection Hd as <-.
        split; [exists e; exact He | exists n; split; assumption].
      * intros Hr. rewrite He in Hr. discriminate.
  - rewrite H. simpl.
    split; [exists 4; reflexivity|].
    split.
    + split; intros _; [apply Hall|]; reflexivity.
    + split; [intros d Hd; discriminate | reflexivity].
Qed.

Lemma health_sequential_fail_fast_witness :
  (exists e, snd (run (healthCmd embedding_down sample_flags)) = Failed e)
  /\ exists n, n <= 2
               /\ probed (fst (run (healthCmd embedding_down sample_flags)))
                  = firstn n probe_order.
Proof.
  destruct (health_sequential_fail_fast embedding_down sample_flags)
    as (_ & _ & H & _).
  exact (H EmbeddingService eq_refl).
Defined.

(** C2, as the code has it.  With the store, the embedding service and
    the reranker passing their checks and the completion endpoint
    unreachable, [health] contacts the four dependencies in order and
    returns the error of the completion call itself, unchanged: nothing is
    wrapped around it and no tag is added. *)
Theorem health_completion_error_unchanged
    (deps : HealthDeps) (f : HealthFlags) (e : error) :
  completion_unreachable deps f e ->
  run (healthCmd deps f)
  = (storage_events f ++ [embedding_event f; reranker_event f; completion_event f],
     Failed e).
Proof.
  intros (Hs & He & Hr & Hu & Hm & Hc).
  apply String.eqb_neq in Hu, Hm.
  revert Hs He Hr. unfold_health.
  rewrite Hu, Hm, Hc. simpl.
  repeat health_step; intros Hs He Hr; try discriminate; reflexivity.
Qed.

Lemma completion_down_unreachable :
  completion_unreachable completion_down sample_flags connection_refused.
Proof. repeat split; discriminate. Qed.

Lemma health_completion_error_unchanged_witness :
  run (healthCmd completion_down sample_flags)
  = (storage_events sample_flags
       ++ [embedding_event sample_flags; reranker_event sample_flags;
           completion_event sample_flags],
     Failed connection_refused).
Proof.
  apply health_completion_error_unchanged.
  repeat split; discriminate.
Defined.

(** C2, as the claim states it, fails.  When the completion endpoint
    refuses the connection, [health] returns that error as it is; when the
    embedding endpoint refuses the connection with the same error, [health]
    returns the very same value.  So no reading of the returned error can
    say "completion" in the first run without saying it in the second,
    where the embedding service is the one that failed. *)
Lemma completion_failure_not_tagged : ~ completion_failure_tagged.
Proof.
  intros (tag & Hcompletion & Hother).
  destruct (Hcompletion completion_down sample_flags connection_refused
              completion_down_unreachable) as (e' & He' & Htag).
  vm_compute in He'. injection He' as <-.
  apply (Hother embedding_down sample_flags (errors_New "connection refused")
           EmbeddingService); [reflexivity | reflexivity | discriminate | exact Htag].
Qed.

Lemma embedding_response_empty_spec (resp : CreateEmbeddingResponse) :
  embedding_response_empty resp = true <->
  (Data resp = [] \/ exists d0 rest, Data resp = d0 :: rest /\ Embedding d0 = []).
Proof.
  unfold embedding_response_empty.
  destruct (Data resp) as [|d0 rest]; simpl.
  - split; [left; reflexivity | reflexivity].
  - destruct (Embedding d0) as [|x v] eqn:Hv; simpl.
    + split; [right; exists d0, rest; auto | reflexivity].
    + split; [discriminate|].
      intros [H | (d & r & H & Hd)]; [discriminate|].
      injection H as <- <-. congruence.
Qed.

(** C4, as the code has it.  Once the embedding provider has answered,
    [health] fails there with "empty response" exactly when the response
    has no result or the vector of its first result is empty; a response
    whose first result has a vector that is not empty passes: the run goes
    on to the reranker (which is contacted unless one of its two flags is
    missing). *)
Theorem health_embedding_response_check
    (deps : HealthDeps) (f : HealthFlags) (resp : CreateEmbeddingResponse) :
  storage_passes deps f = true ->
  embedding_base_url f <> "" ->
  embedding_model f <> "" ->
  Embeddings_New deps (embedding_base_url f)
    (embedding_canary (embedding_model f)) = inr resp ->
  (run (healthCmd deps f)
   = (storage_events f ++ [embedding_event f], Failed (errors_New "empty response"))
   <-> (Data resp = []
        \/ exists d0 rest, Data resp = d0 :: rest /\ Embedding d0 = []))
  /\ (forall d0 rest,
         Data resp = d0 :: rest -> Embedding d0 <> [] ->
         snd (run (healthCmd deps f))
         = Failed (errors_New "reranker-base-url is required")
         \/ snd (run (healthCmd deps f))
            = Failed (errors_New "reranker-model is required")
         \/ In (reranker_event f) (fst (run (healthCmd deps f)))).
Proof.
  intros Hs Hu Hm Hresp.
  assert (Hfirst : forall d0 rest,
             Data resp = d0 :: rest -> Embedding d0 <> [] ->
             embedding_response_empty resp = false).
  { intros d0 rest Hd Hv.
    destruct (embedding_response_empty resp) eqn:E; [|reflexivity].
    apply embedding_response_empty_spec in E.
    destruct E as [E | (d & r & E & Ev)]; [congruence|].
    rewrite Hd in E. injection E as <- <-. contradiction. }
  pose proof (embedding_response_empty_spec resp) as Hspec.
  apply String.eqb_neq in Hu, Hm.
  revert Hs Hspec Hfirst. unfold_health.
  rewrite Hu, Hm, Hresp. simpl.
  repeat health_step; intros Hs Hspec Hfirst; try discriminate;
    (split;
     [ split;
       [ intros H; first [ apply Hspec; reflexivity | discriminate H ]
       | intros H; first [ reflexivity | apply Hspec in H; discriminate H ] ]
     | intros d0 rest Hd Hv;
       first [ specialize (Hfirst d0 rest Hd Hv); discriminate Hfirst
             | left; reflexivity
             | right; left; reflexivity
             | right; right; simpl; tauto ] ]).
Qed.

Lemma health_embedding_response_check_witness :
  run (healthCmd (embedding_answers second_vector_only) sample_flags)
  = (storage_events sample_flags ++ [embedding_event sample_flags],
     Failed (errors_New "empty response")).
Proof.
  apply (health_embedding_response_check
           (embedding_answers second_vector_only) sample_flags second_vector_only);
    [reflexivity | discriminate | discriminate | reflexivity |].
  right. exists {| Embedding := [] |}, [ {| Embedding := [one] |} ].
  split; reflexivity.
Defined.

(** C4, as the claim states it, fails on its last clause.  The response
    [second_vector_only] has a vector that is not empty (its second), and
    [health] still ends on "empty response": only the first result is
    looked at. *)
Lemma nonempty_vector_does_not_pass :
  has_nonempty_vector second_vector_only = true
  /\ run (healthCmd (embedding_answers second_vector_only) sample_flags)
     = ([EvOpenDB "postgres://rag"; EvDB; EvPing;
         EvEmbeddingsNew "http://embed/v1" (embedding_canary "bge-m3")],
        Failed (errors_New "empty response")).
Proof. split; reflexivity. Qed.

(** ** serve *)

Lemma errors_Is_refl_ServerClosed :
  errors_Is http_ErrServerClosed http_ErrServerClosed = true.
Proof. reflexivity. Qed.

Lemma errors_Is_wrapped (e target : error) (msg : string) :
  errors_Is e target = true -> errors_Is (errors_Wrap e msg) target = true.
Proof. intros H. simpl. rewrite H. apply orb_true_r. Qed.





(** ** compute *)

(** C8.  [compute] calls [ComputeEmbeddings] with [skip_existing] set to
    the negation of the force flag, and returns what the call returns: it
    is the only call of the run, made once the database is open.  Without
    [--force] the argument is [true]; with it, [false]. *)
Theorem compute_skip_existing_is_not_force (deps : RagDeps) (command : ComputeFlags) :
  (forall db,
      OpenDB deps (compute_dsn command) = inr db ->
      run (computeCmd deps command)
      = ([EvOpenDB (compute_dsn command);
          EvComputeEmbeddings (negb (command_Bool_force command))],
         match ComputeEmbeddings deps (negb (command_Bool_force command)) with
         | None => Returned tt
         | Some e => Failed e
         end))
  /\ (forall skip_existing,
         In skip_existing (sync_calls (fst (run (computeCmd deps command)))) ->
         skip_existing = negb (command_Bool_force command))
  /\ (force_given command = None -> negb (command_Bool_force command) = true)
  /\ (force_given command = Some false -> negb (command_Bool_force command) = true)
  /\ (force_given command = Some true -> negb (command_Bool_force command) = false).
Proof.
  unfold computeCmd, command_Bool_force. unfold_action.
  repeat split.
  - intros db ->. simpl.
    destruct (ComputeEmbeddings deps _); reflexivity.
  - intros b. destruct (OpenDB deps (compute_dsn command)); simpl.
    + tauto.
    + intros [H | []]. symmetry. exact H.
  - intros ->. reflexivity.
  - intros ->. reflexivity.
  - intros ->. reflexivity.
Qed.

Lemma compute_skip_existing_is_not_force_witness :
  run (computeCmd (sample_deps None) (sample_compute None))
  = ([EvOpenDB "postgres://rag"; EvComputeEmbeddings true], Returned tt)
  /\ run (computeCmd (sample_deps None) (sample_compute (Some true)))
     = ([EvOpenDB "postgres://rag"; EvComputeEmbeddings false], Returned tt).
Proof.
  split.
  - destruct (compute_skip_existing_is_not_force
                (sample_deps None) (sample_compute None)) as (H & _).
    exact (H healthy_db eq_refl).
  - destruct (compute_skip_existing_is_not_force
                (sample_deps None) (sample_compute (Some true))) as (H & _).
    exact (H healthy_db eq_refl).
Defined.

(** ** get *)

(** C9.  Once the id is given and the database is open, what [get] does
    depends on the chunk pointer of the lookup alone, never on its error:
    with a chunk it prints the text and returns nil, with a nil pointer the
    dereference panics.  So [get] never returns the error of the lookup;
    and there is a lookup that fails, with a nil chunk, on which [get]
    panics. *)
Theorem get_ignores_lookup_error (deps : RagDeps) (command : GetFlags) (db : gorm_DB) :
  get_id command <> "" ->
  OpenDB deps (get_dsn command) = inr db ->
  run (getChunkCmd deps command)
  = match fst (GetDocumentChunk deps (get_id command)) with
    | Some chunk =>
        ([EvOpenDB (get_dsn command); EvGetDocumentChunk (get_id command);
          EvPrintln (Chunk_Text chunk)],
         Returned tt)
    | None =>
        ([EvOpenDB (get_dsn command); EvGetDocumentChunk (get_id command)],
         Panicked)
    end
  /\ (forall e, snd (run (getChunkCmd deps command)) <> Failed e)
  /\ exists deps' command',
       snd (GetDocumentChunk deps' (get_id command')) = Some not_found
       /\ snd (run (getChunkCmd deps' command')) = Panicked.
Proof.
  intros Hid Hopen. apply String.eqb_neq in Hid.
  unfold getChunkCmd. unfold_action. rewrite Hid, Hopen. simpl.
  destruct (GetDocumentChunk deps (get_id command)) as [[chunk|] err]; simpl.
  - repeat split; try discriminate.
    exists (sample_deps None), (sample_get "zz"). split; reflexivity.
  - repeat split; try discriminate.
    exists (sample_deps None), (sample_get "zz"). split; reflexivity.
Qed.

Lemma get_ignores_lookup_error_witness :
  run (getChunkCmd (sample_deps None) (sample_get "zz"))
  = ([EvOpenDB "postgres://rag"; EvGetDocumentChunk "zz"], Panicked).
Proof.
  destruct (get_ignores_lookup_error (sample_deps None) (sample_get "zz") healthy_db)
    as (H & _); [discriminate | reflexivity |].
  exact H.
Defined.

(** ** main *)

(** C1, as the code has it.  When the command returns an error, [main]
    logs it, once, at error level; when the command returns nil nothing is
    logged.  In both cases [main] then returns and the exit status is 0:
    the status differs from 0 only when the command panics. *)
Theorem main_logs_error_and_returns (e : error) :
  main (Failed e)
  = {| logged := [ {| log_level := "error"; log_err := e;
                      log_msg := "Unexpected error" |} ];
       exit_status := 0 |}
  /\ main (Returned tt) = {| logged := []; exit_status := 0 |}
  /\ (forall r, exit_status (main r) <> 0%Z <-> r = Panicked).
Proof.
  repeat split.
  - destruct r; simpl; intros H; try reflexivity; exfalso; apply H; reflexivity.
  - intros ->. discriminate.
Qed.

Lemma main_logs_error_and_returns_witness :
  exit_status (main (@Panicked unit)) <> 0%Z.
Proof.
  destruct (main_logs_error_and_returns connection_refused) as (_ & _ & H).
  apply H. reflexivity.
Defined.

(** C1, as the claim states it, fails.  [scan] without a path returns the
    error "path is required"; [main] logs it and the process still ends
    with status 0. *)
Lemma scan_without_path_exits_zero :
  snd (run (scanCmd (sample_deps None) scan_without_path))
  = Failed (errors_New "path is required")
  /\ exit_status (main (snd (run (scanCmd (sample_deps None) scan_without_path))))
     = 0%Z.
Proof. split; reflexivity. Qed.

(** ** scan: the decoder *)

Section Decoder.
Variable sch : Schema.

Lemma decode_chunk_members_unknown (ms : list (string * json)) (c : Chunk) :
  existsb (fun m => match chunk_key sch (fst m) with
                    | None => true
                    | Some _ => false
                    end) ms = true ->
  exists e, decode_chunk_members true sch ms c = inl e.
Proof.
  revert c. induction ms as [|[key v] rest IH]; intros c H; [discriminate|].
  simpl in H. simpl.
  destruct (chunk_key sch key) as [[|]|].
  - destruct v; eauto.
  - destruct v; eauto.
  - eauto.
Qed.

Lemma decode_chunk_unknown (j : json) :
  chunk_has_unknown_field sch j = true ->
  exists e, decode_chunk true sch j = inl e.
Proof.
  destruct j; try discriminate.
  apply decode_chunk_members_unknown.
Qed.

Lemma decode_chunks_unknown (items : list json) :
  existsb (chunk_has_unknown_field sch) items = true ->
  exists e, decode_chunks true sch items = inl e.
Proof.
  induction items as [|j rest IH]; intros H; [discriminate|].
  simpl in H. apply orb_true_iff in H. simpl.
  destruct H as [H | H].
  - destruct (decode_chunk_unknown j H) as [e ->]. eauto.
  - destruct (decode_chunk true sch j); [eauto|].
    destruct (IH H) as [e ->]. eauto.
Qed.

Lemma decode_document_members_unknown (ms : list (string * json)) (doc : Document) :
  existsb (fun m => match document_key sch (fst m) with
                    | None => true
                    | Some FieldChunks =>
                        match snd m with
                        | JArray items =>
                            existsb (chunk_has_unknown_field sch) items
                        | _ => false
                        end
                    | Some FieldRawDocument => false
                    end) ms = true ->
  exists e, decode_document_members true sch ms doc = inl e.
Proof.
  revert doc. induction ms as [|[key v] rest IH]; intros doc H; [discriminate|].
  simpl in H. simpl.
  destruct (document_key sch key) as [[|]|].
  - destruct v; eauto.
  - destruct v as [| | | |items|]; eauto.
    apply orb_true_iff in H. destruct H as [H | H].
    + destruct (decode_chunks_unknown items H) as [e ->]. eauto.
    + destruct (decode_chunks true sch items); eauto.
  - eauto.
Qed.

Lemma decode_document_unknown (j : json) :
  document_has_unknown_field sch j = true ->
  exists e, decode_document true sch j = inl e.
Proof.
  destruct j; try discriminate.
  apply decode_document_members_unknown.
Qed.
End Decoder.

(** The switch is what rejects: the descriptor with the member [author]
    decodes when unknown fields are allowed, and does not when they are
    not. *)
Example author_json_lenient_and_strict :
  decode_document false spec_schema author_json
  = inr {| RawDocument := "d2.pdf"; Chunks := [] |}
  /\ decode_document true spec_schema author_json = inl (unknown_field "author")
  /\ decode_document true spec_schema munich_json = inr munich_doc.
Proof. repeat split. Qed.

(** C5.  For a file that matches the pattern and can be read: if its
    JSON has a key that names no field of the document, decoding fails; and
    whenever decoding fails, whatever the reason, the function of the walk
    returns that error with the read as its only event, so
    [UpsertDocumentChunks] is not called for the file. *)
Theorem scan_rejects_unknown_fields
    (deps : RagDeps) (g : string -> bool) (path name buf : string) (tr : trace) :
  g name = true ->
  (forall j, json_lex deps buf = inr j ->
             document_has_unknown_field (schema deps) j = true ->
             exists e, Decode deps (DisallowUnknownFields (json_NewDecoder buf)) = inl e)
  /\ (forall e, Decode deps (DisallowUnknownFields (json_NewDecoder buf)) = inl e ->
                scan_visit deps g path (Some (FileNode name (inr buf))) None tr
                = (tr ++ [EvReadFile path], Failed e)).
Proof.
  intros Hg. split.
  - intros j Hlex Hunknown. unfold Decode. simpl. rewrite Hlex.
    apply decode_document_unknown. exact Hunknown.
  - intros e Hdecode. unfold scan_visit. rewrite Hg. simpl.
    unfold_action. simpl. rewrite Hdecode. reflexivity.
Qed.

Lemma scan_rejects_unknown_fields_witness :
  scan_visit (sample_deps None) chunks_json "docs/b.chunks.json"
    (Some (FileNode "b.chunks.json" (inr "author"))) None []
  = ([EvReadFile "docs/b.chunks.json"], Failed (unknown_field "author")).
Proof.
  destruct (scan_rejects_unknown_fields (sample_deps None) chunks_json
              "docs/b.chunks.json" "b.chunks.json" "author" [] eq_refl)
    as (_ & H).
  exact (H (unknown_field "author") eq_refl).
Defined.

(** ** scan: the walk *)

Lemma bind_ret_tt (c : action unit) (tr : trace) :
  (c ;;; ret tt) tr = c tr.
Proof.
  unfold bind, ret. destruct (c tr) as [tr' [[]| |]]; reflexivity.
Qed.

Lemma bind_assoc {A B C} (c : action A) (k : A -> action B) (h : B -> action C)
    (tr : trace) :
  bind (bind c k) h tr = bind c (fun a => bind (k a) h) tr.
Proof.
  unfold bind. destruct (c tr) as [tr' [a| |]]; reflexivity.
Qed.

Lemma bind_ext {A B} (c : action A) (k k' : A -> action B) (tr : trace) :
  (forall a tr', k a tr' = k' a tr') -> bind c k tr = bind c k' tr.
Proof.
  intros H. unfold bind. destruct (c tr) as [tr' [a| |]]; auto.
Qed.

Section Walk.
Variable fn : string -> option node -> option error -> action unit.

Lemma run_visits_app (vs ws : list visit) (tr : trace) :
  run_visits fn (vs ++ ws) tr = (run_visits fn vs ;;; run_visits fn ws) tr.
Proof.
  revert tr. induction vs as [|[[path d] err] vs IH]; intros tr.
  - reflexivity.
  - simpl. rewrite bind_assoc. apply bind_ext. intros _ tr'. apply IH.
Qed.

(** Induction on a tree of entries: a directory has the property when
    all its entries have it. *)
Lemma node_induction (P : node -> Prop) :
  (forall name content, P (FileNode name content)) ->
  (forall name entries readdir_err,
      Forall P entries -> P (DirNode name entries readdir_err)) ->
  forall d, P d.
Proof.
  intros Hfile Hdir.
  fix IH 1. intros [name content | name entries readdir_err].
  - apply Hfile.
  - apply Hdir. induction entries as [|d1 rest IHrest].
    + constructor.
    + constructor; [apply IH | exact IHrest].
Qed.

Lemma walk_entries_visits (path : string) (entries : list node) :
  Forall (fun d => forall p tr, walkDir fn p d tr = run_visits fn (visits p d) tr)
         entries ->
  forall tr,
    walk_entries (walkDir fn) path entries tr
    = run_visits fn (flat_map (fun d1 => visits (Join path (Name d1)) d1) entries) tr.
Proof.
  induction 1 as [|d1 rest Hd1 Hrest IH]; intros tr.
  - reflexivity.
  - simpl. rewrite run_visits_app. unfold bind.
    rewrite Hd1.
    destruct (run_visits fn (visits (Join path (Name d1)) d1) tr)
      as [tr' [[]| |]]; auto.
Qed.

(** A walk makes the calls of [visits], in order, up to the first that
    does not return nil. *)
Lemma walkDir_visits (d : node) :
  forall path tr, walkDir fn path d tr = run_visits fn (visits path d) tr.
Proof.
  induction d as [name content | name entries readdir_err IH]
    using node_induction; intros path tr.
  - simpl. rewrite bind_ret_tt. reflexivity.
  - simpl. apply bind_ext. intros _ tr1.
    destruct readdir_err as [e|]; simpl.
    + apply bind_ext. intros _ tr2. apply walk_entries_visits. exact IH.
    + unfold bind at 1, ret. apply walk_entries_visits. exact IH.
Qed.
End Walk.

(** What the function of the walk does on a file that matches the
    pattern: read, decode, upsert, stopping at the first error. *)
Lemma scan_visit_file (deps : RagDeps) (g : string -> bool)
    (path name : string) (content : error + string) (tr : trace) :
  g name = true ->
  scan_visit deps g path (Some (FileNode name content)) None tr
  = match content with
    | inl e => (tr ++ [EvReadFile path], Failed e)
    | inr buf =>
        match Decode deps (DisallowUnknownFields (json_NewDecoder buf)) with
        | inl e => (tr ++ [EvReadFile path], Failed e)
        | inr doc =>
            ((tr ++ [EvReadFile path]) ++ [EvUpsertDocumentChunks path doc],
             match UpsertDocumentChunks deps (tr ++ [EvReadFile path]) doc with
             | Some e => Failed e
             | None => Returned tt
             end)
        end
    end.
Proof.
  intros Hg. unfold scan_visit. rewrite Hg. simpl. unfold_action.
  destruct content as [e|buf]; simpl; [reflexivity|].
  destruct (Decode deps _) as [e|doc]; simpl; [reflexivity|].
  destruct (UpsertDocumentChunks deps _ doc); reflexivity.
Qed.

(** C10.  Take a run of [scan] over a tree, and a file of the walk that
    matches the pattern: the calls before it returned nil, and reading,
    decoding or upserting it gives an error.  Then [scan] returns that
    error, and its trace ends with the events of that file: none of the
    entries that come later in the walk is read or upserted. *)
Theorem scan_aborts_on_first_failure
    (deps : RagDeps) (command : ScanFlags) (g : string -> bool) (db : gorm_DB)
    (root : node) (pre post : list visit) (path name : string)
    (content : error + string) (tr1 : trace) (e : error) :
  scan_path command <> "" ->
  glob_Compile deps (scan_glob command) = inr g ->
  OpenDB deps (scan_dsn command) = inr db ->
  Lstat deps (scan_path command) = inr root ->
  visits (scan_path command) root
  = pre ++ (path, Some (FileNode name content), None) :: post ->
  run_visits (scan_visit deps g) pre
    [EvGlobCompile (scan_glob command); EvOpenDB (scan_dsn command)]
  = (tr1, Returned tt) ->
  g name = true ->
  ingest_error deps tr1 path content = Some e ->
  exists evs,
    run (scanCmd deps command) = (tr1 ++ evs, Failed e)
    /\ Forall (event_of_file path) evs.
Proof.
  intros Hpath Hglob Hopen Hlstat Hvisits Hpre Hg Hfail.
  apply String.eqb_neq in Hpath.
  unfold scanCmd, run, reject_if, filepath_WalkDir.
  rewrite Hpath, Hlstat.
  unfold bind at 1. unfold ret at 1.
  unfold bind at 1. unfold call at 1. rewrite Hglob.
  unfold bind at 1. unfold call at 1. rewrite Hopen. simpl.
  rewrite walkDir_visits, Hvisits, run_visits_app.
  unfold bind at 1. rewrite Hpre. cbn [run_visits].
  unfold bind at 1. rewrite (scan_visit_file deps g path name content tr1 Hg).
  unfold ingest_error in Hfail.
  destruct content as [e0|buf].
  - injection Hfail as ->.
    exists [EvReadFile path]. split; [reflexivity|].
    constructor; [left; reflexivity | constructor].
  - destruct (Decode deps _) as [e0|doc].
    + injection Hfail as ->.
      exists [EvReadFile path]. split; [reflexivity|].
      constructor; [left; reflexivity | constructor].
    + rewrite Hfail.
      exists [EvReadFile path; EvUpsertDocumentChunks path doc].
      split; [rewrite <- app_assoc; reflexivity|].
      constructor; [left; reflexivity|].
      constructor; [right; exists doc; reflexivity | constructor].
Qed.

Lemma scan_aborts_on_first_failure_witness :
  exists evs,
    run (scanCmd (sample_deps None) sample_scan)
    = ([EvGlobCompile "*.chunks.json"; EvOpenDB "postgres://rag";
        EvReadFile "docs/a.chunks.json";
        EvUpsertDocumentChunks "docs/a.chunks.json" munich_doc] ++ evs,
       Failed (unknown_field "author"))
    /\ Forall (event_of_file "docs/b.chunks.json") evs.
Proof.
  apply (scan_aborts_on_first_failure (sample_deps None) sample_scan
           chunks_json healthy_db sample_tree
           [("docs", Some sample_tree, None);
            ("docs/a.chunks.json", Some (FileNode "a.chunks.json" (inr "munich")), None)]
           [("docs/c.chunks.json", Some (FileNode "c.chunks.json" (inr "munich")), None)]
           "docs/b.chunks.json" "b.chunks.json" (inr "author"));
    try reflexivity.
  discriminate.
Defined.

(* ================================================================== *)
(** * Part III: further properties of the commands                     *)
(* ================================================================== *)

(** ** health *)

(** X1.  [health] prints its one line exactly when it returns nil: on
    every failure nothing is printed. *)
Theorem health_prints_only_on_success (deps : HealthDeps) (f : HealthFlags) :
  printed (fst (run (healthCmd deps f)))
  = match snd (run (healthCmd deps f)) with
    | Returned _ => [health_ok_line]
    | _ => []
    end.
Proof.
  unfold_health. repeat health_step; reflexivity.
Qed.

Ltac in_trace H :=
  simpl in H;
  repeat (destruct H as [<- | H]);
  try contradiction;
  repeat split;
  try reflexivity;
  try (apply String.eqb_neq; assumption);
  try exact I.

(** X2.  Whatever the collaborators answer, [health] only contacts what
    the flags name: the database of a [dsn] that is not empty, and each
    service at a base URL that is not empty, with a model that is not
    empty, and with the fixed canary request. *)
Theorem health_contacts_only_what_is_configured
    (deps : HealthDeps) (f : HealthFlags) (ev : event) :
  In ev (fst (run (healthCmd deps f))) ->
  match ev with
  | EvOpenDB d => d = dsn f /\ d <> ""
  | EvEmbeddingsNew u p =>
      u = embedding_base_url f /\ u <> ""
      /\ p = embedding_canary (embedding_model f) /\ Model p <> ""
  | EvRerank u r =>
      u = reranker_base_url f /\ u <> ""
      /\ r = reranker_canary (reranker_model f) /\ RerankModel r <> ""
  | EvCompletionsNew u p =>
      u = assistant_base_url f /\ u <> ""
      /\ p = completion_canary (assistant_model f) /\ CompletionModel p <> ""
  | _ => True
  end.
Proof.
  unfold_health. repeat health_step; intros H; in_trace H.
Qed.

Lemma health_contacts_only_what_is_configured_witness :
  "http://rerank" = reranker_base_url sample_flags
  /\ "http://rerank" <> ""
  /\ reranker_canary "bge-reranker" = reranker_canary (reranker_model sample_flags)
  /\ RerankModel (reranker_canary "bge-reranker") <> "".
Proof.
  apply (health_contacts_only_what_is_configured completion_down sample_flags
           (EvRerank "http://rerank" (reranker_canary "bge-reranker"))).
  simpl. tauto.
Defined.

Lemma completion_response_empty_spec (resp : Completion) :
  completion_response_empty resp = true <->
  (Choices resp = [] \/ exists c0 rest, Choices resp = c0 :: rest /\ Text c0 = "").
Proof.
  unfold completion_response_empty.
  destruct (Choices resp) as [|c0 rest]; simpl.
  - split; [left; reflexivity | reflexivity].
  - destruct (Text c0) as [|a t] eqn:Ht; simpl.
    + split; [right; exists c0, rest; auto | reflexivity].
    + split; [discriminate|].
      intros [H | (c & r & H & Hc)]; [discriminate|].
      injection H as <- <-. congruence.
Qed.

(** X3.  Once the three earlier checks have passed and the completion
    provider has answered, [health] fails with "empty response", the line
    not printed, exactly when the answer has no choice or the text of its
    first choice is empty; otherwise it prints its line and returns nil. *)
Theorem health_completion_response_check
    (deps : HealthDeps) (f : HealthFlags) (resp : Completion) :
  storage_passes deps f = true ->
  embedding_passes deps f = true ->
  reranker_passes deps f = true ->
  assistant_base_url f <> "" ->
  assistant_model f <> "" ->
  Completions_New deps (assistant_base_url f)
    (completion_canary (assistant_model f)) = inr resp ->
  (run (healthCmd deps f)
   = (storage_events f ++ [embedding_event f; reranker_event f; completion_event f],
      Failed (errors_New "empty response"))
   <-> (Choices resp = []
        \/ exists c0 rest, Choices resp = c0 :: rest /\ Text c0 = ""))
  /\ (completion_response_empty resp = false ->
      run (healthCmd deps f)
      = (storage_events f
           ++ [embedding_event f; reranker_event f; completion_event f;
               EvPrintln health_ok_line],
         Returned tt)).
Proof.
  intros Hs He Hr Hu Hm Hc.
  pose proof (completion_response_empty_spec resp) as Hspec.
  apply String.eqb_neq in Hu, Hm.
  revert Hs He Hr Hspec. unfold_health.
  rewrite Hu, Hm, Hc. simpl.
  repeat health_step; intros Hs He Hr Hspec; try discriminate;
    (split;
     [ split;
       [ intros H; first [ apply Hspec; reflexivity | discriminate H ]
       | intros H; first [ reflexivity | apply Hspec in H; discriminate H ] ]
     | intros H; first [ reflexivity | discriminate H ] ]).
Qed.

Lemma health_completion_response_check_witness :
  run (healthCmd all_up sample_flags)
  = (storage_events sample_flags
       ++ [embedding_event sample_flags; reranker_event sample_flags;
           completion_event sample_flags; EvPrintln health_ok_line],
     Returned tt).
Proof.
  apply (health_completion_response_check all_up sample_flags one_choice);
    try reflexivity; discriminate.
Defined.

(** The pattern of the cases of the next theorem: the checks that passed and the flag
    values are put in the goal, then the run is followed answer by
    answer. *)
Ltac health_reaches :=
  unfold_health; repeat health_step; intros; try discriminate; reflexivity.

(** X4.  A flag that is missing is reported when its turn comes, after
    the checks before it have been made: [dsn] before anything is
    contacted; the two embedding flags once the database answered; the two
    reranker flags once the embedding service answered; the two assistant
    flags once the reranker answered.  The trace is that of the checks
    passed so far. *)
Theorem health_reports_missing_flag_in_turn (deps : HealthDeps) (f : HealthFlags) :
  (dsn f = "" ->
   run (healthCmd deps f) = ([], Failed (errors_New "dsn is required")))
  /\ (storage_passes deps f = true ->
      embedding_base_url f = "" ->
      run (healthCmd deps f)
      = (storage_events f, Failed (errors_New "embedding-base-url is required")))
  /\ (storage_passes deps f = true ->
      embedding_base_url f <> "" ->
      embedding_model f = "" ->
      run (healthCmd deps f)
      = (storage_events f, Failed (errors_New "embedding-model is required")))
  /\ (storage_passes deps f = true ->
      embedding_passes deps f = true ->
      reranker_base_url f = "" ->
      run (healthCmd deps f)
      = (storage_events f ++ [embedding_event f],
         Failed (errors_New "reranker-base-url is required")))
  /\ (storage_passes deps f = true ->
      embedding_passes deps f = true ->
      reranker_base_url f <> "" ->
      reranker_model f = "" ->
      run (healthCmd deps f)
      = (storage_events f ++ [embedding_event f],
         Failed (errors_New "reranker-model is required")))
  /\ (storage_passes deps f = true ->
      embedding_passes deps f = true ->
      reranker_passes deps f = true ->
      assistant_base_url f = "" ->
      run (healthCmd deps f)
      = (storage_events f ++ [embedding_event f; reranker_event f],
         Failed (errors_New "assistant-base-url is required")))
  /\ (storage_passes deps f = true ->
      embedding_passes deps f = true ->
      reranker_passes deps f = true ->
      assistant_base_url f <> "" ->
      assistant_model f = "" ->
      run (healthCmd deps f)
      = (storage_events f ++ [embedding_event f; reranker_event f],
         Failed (errors_New "assistant-model is required"))).
Proof.
  repeat split.
  - intros H. unfold_health. rewrite H. reflexivity.
  - intros Hs H. revert Hs. unfold_health. rewrite H. simpl. health_reaches.
  - intros Hs Hu H. apply String.eqb_neq in Hu. revert Hs.
    unfold_health. rewrite Hu, H. simpl. health_reaches.
  - intros Hs He H. revert Hs He. unfold_health. rewrite H. simpl. health_reaches.
  - intros Hs He Hu H. apply String.eqb_neq in Hu. revert Hs He.
    unfold_health. rewrite Hu, H. simpl. health_reaches.
  - intros Hs He Hr H. revert Hs He Hr. unfold_health. rewrite H. simpl.
    health_reaches.
  - intros Hs He Hr Hu H. apply String.eqb_neq in Hu. revert Hs He Hr.
    unfold_health. rewrite Hu, H. simpl. health_reaches.
Qed.


Lemma health_reports_missing_flag_in_turn_witness :
  run (healthCmd all_up without_reranker_url)
  = (storage_events without_reranker_url ++ [embedding_event without_reranker_url],
     Failed (errors_New "reranker-base-url is required")).
Proof.
  destruct (health_reports_missing_flag_in_turn all_up without_reranker_url)
    as (_ & _ & _ & H & _).
  apply H; reflexivity.
Defined.

(** ** scan *)

(** Every call a walk makes from an entry comes with that entry or one
    below it: the nil entry is only for an error on the root. *)
Lemma visits_have_entry (d : node) :
  forall path, Forall (fun v : visit => snd (fst v) <> None) (visits path d).
Proof.
  induction d as [name content | name entries readdir_err IH]
    using node_induction; intros path.
  - repeat constructor. discriminate.
  - simpl. constructor; [discriminate|].
    apply Forall_app. split.
    + destruct readdir_err; repeat constructor. discriminate.
    + apply Forall_flat_map. apply Forall_forall. intros d1 Hd1.
      rewrite Forall_forall in IH. apply IH. exact Hd1.
Qed.

Lemma read_paths_app (a b : trace) :
  read_paths (a ++ b) = read_paths a ++ read_paths b.
Proof.
  induction a as [|ev a IH]; [reflexivity|].
  destruct ev; simpl; rewrite ?IH; reflexivity.
Qed.

Lemma upserted_paths_app (a b : trace) :
  upserted_paths (a ++ b) = upserted_paths a ++ upserted_paths b.
Proof.
  induction a as [|ev a IH]; [reflexivity|].
  destruct ev; simpl; rewrite ?IH; reflexivity.
Qed.

Lemma scanned_from_cons (deps : RagDeps) (g : string -> bool)
    (v : visit) (vs : list visit) (ev : event) :
  scanned_from deps g vs ev -> scanned_from deps g (v :: vs) ev.
Proof.
  destruct ev; simpl; try tauto.
  - intros (name & content & Hin & Hg). exists name, content. auto.
  - intros (name & buf & Hin & Hg & Hd). exists name, buf. auto.
Qed.

Section ScanWalk.
Variable deps : RagDeps.
Variable g : string -> bool.

(** What the calls of a walk add to the trace, and how they end: the
    reads follow the matched files of the walk in order, the upserts
    follow the reads, at most one behind, and the nil entry is never
    looked at. *)
Lemma scan_visits_invariant (vs : list visit) :
  Forall (fun v : visit => snd (fst v) <> None) vs ->
  forall tr, exists evs,
    fst (run_visits (scan_visit deps g) vs tr) = tr ++ evs
    /\ snd (run_visits (scan_visit deps g) vs tr) <> Panicked
    /\ (exists rest, matched_paths g vs = read_paths evs ++ rest)
    /\ (exists last, read_paths evs = upserted_paths evs ++ last
                     /\ List.length last <= 1)
    /\ (snd (run_visits (scan_visit deps g) vs tr) = Returned tt ->
        read_paths evs = matched_paths g vs
        /\ upserted_paths evs = matched_paths g vs)
    /\ Forall (scanned_from deps g vs) evs.
Proof.
  induction 1 as [|[[p d] err] vs Hd Hvs IH]; intros tr.
  - exists []. simpl. rewrite app_nil_r.
    repeat split; try discriminate; try constructor.
    + exists []. reflexivity.
    + exists []. split; [reflexivity | simpl; lia].
  - assert (Hskip :
      scan_visit deps g p d err tr = (tr, Returned tt) ->
      visit_matches g (p, d, err) = false ->
      exists evs,
        fst (run_visits (scan_visit deps g) ((p, d, err) :: vs) tr) = tr ++ evs
        /\ snd (run_visits (scan_visit deps g) ((p, d, err) :: vs) tr) <> Panicked
        /\ (exists rest, matched_paths g ((p, d, err) :: vs) = read_paths evs ++ rest)
        /\ (exists last, read_paths evs = upserted_paths evs ++ last
                         /\ List.length last <= 1)
        /\ (snd (run_visits (scan_visit deps g) ((p, d, err) :: vs) tr) = Returned tt ->
            read_paths evs = matched_paths g ((p, d, err) :: vs)
            /\ upserted_paths evs = matched_paths g ((p, d, err) :: vs))
        /\ Forall (scanned_from deps g ((p, d, err) :: vs)) evs).
    { intros Hret Hno.
      destruct (IH tr) as (evs & Hfst & Hpanic & Hread & Hups & Hall & Hfrom).
      exists evs.
      unfold matched_paths. cbn [filter]. rewrite Hno.
      cbn [run_visits]. unfold bind. rewrite Hret.
      repeat split; try assumption; try (apply Hall; assumption).
      eapply Forall_impl; [|exact Hfrom]. intros ev. apply scanned_from_cons. }
    destruct err as [e|].
    + (* the call reports an error: it is returned *)
      exists []. cbn [run_visits]. unfold bind. simpl. rewrite app_nil_r.
      repeat split; try discriminate; try constructor.
      * exists (matched_paths g ((p, d, Some e) :: vs)). reflexivity.
      * exists []. split; [reflexivity | simpl; lia].
    + destruct d as [[name content | name entries rerr]|]; [| |contradiction Hd; reflexivity].
      2: { apply Hskip; reflexivity. }
      destruct (g name) eqn:Hg.
      2: { apply Hskip; [unfold scan_visit; rewrite Hg; reflexivity | exact Hg]. }
      pose proof (scan_visit_file deps g p name content tr Hg) as Hfile.
      assert (Hhere : In (p, Some (FileNode name content), @None error)
                         ((p, Some (FileNode name content), None) :: vs))
        by (left; reflexivity).
      unfold matched_paths. cbn [filter visit_matches]. rewrite Hg.
      cbn [map visit_path fst]. fold (matched_paths g vs).
      cbn [run_visits]. unfold bind. rewrite Hfile.
      destruct content as [e|buf].
      { exists [EvReadFile p]. simpl.
        repeat split; try discriminate.
        - exists (matched_paths g vs). reflexivity.
        - exists [p]. split; [reflexivity | simpl; lia].
        - constructor; [|constructor]. exists name, (inl e). auto. }
      destruct (Decode deps (DisallowUnknownFields (json_NewDecoder buf)))
        as [e|doc] eqn:Hdec.
      { exists [EvReadFile p]. simpl.
        repeat split; try discriminate.
        - exists (matched_paths g vs). reflexivity.
        - exists [p]. split; [reflexivity | simpl; lia].
        - constructor; [|constructor]. exists name, (inr buf). auto. }
      assert (Hboth : Forall (scanned_from deps g
                                ((p, Some (FileNode name (inr buf)), None) :: vs))
                             [EvReadFile p; EvUpsertDocumentChunks p doc]).
      { constructor; [exists name, (inr buf); auto|].
        constructor; [exists name, buf; auto | constructor]. }
      destruct (UpsertDocumentChunks deps (tr ++ [EvReadFile p]) doc) as [e|].
      { exists [EvReadFile p; EvUpsertDocumentChunks p doc]. simpl.
        rewrite <- app_assoc.
        repeat split; try discriminate; try exact Hboth.
        - exists (matched_paths g vs). reflexivity.
        - exists []. split; [reflexivity | simpl; lia]. }
      destruct (IH ((tr ++ [EvReadFile p]) ++ [EvUpsertDocumentChunks p doc]))
        as (evs & Hfst & Hpanic & (rest & Hread) & (last & Hups & Hlast) & Hall & Hfrom).
      exists (EvReadFile p :: EvUpsertDocumentChunks p doc :: evs).
      split; [rewrite Hfst, <- !app_assoc; reflexivity|].
      split; [exact Hpanic|].
      split; [exists rest; simpl; rewrite Hread; reflexivity|].
      split; [exists last; simpl; rewrite Hups; auto|].
      split.
      * intros Hr. destruct (Hall Hr) as [Hr1 Hr2]. simpl.
        rewrite Hr1, Hr2. auto.
      * apply Forall_app with (l1 := [EvReadFile p; EvUpsertDocumentChunks p doc]).
        split; [exact Hboth|].
        eapply Forall_impl; [|exact Hfrom]. intros ev. apply scanned_from_cons.
Qed.
End ScanWalk.

(** A run of [scan] whose path, pattern, database and root are in order
    is the walk of the root, after the two events of the preparation. *)
Lemma scanCmd_walks (deps : RagDeps) (command : ScanFlags) (g : string -> bool)
    (db : gorm_DB) (root : node) :
  scan_path command <> "" ->
  glob_Compile deps (scan_glob command) = inr g ->
  OpenDB deps (scan_dsn command) = inr db ->
  Lstat deps (scan_path command) = inr root ->
  run (scanCmd deps command)
  = run_visits (scan_visit deps g) (visits (scan_path command) root)
      [EvGlobCompile (scan_glob command); EvOpenDB (scan_dsn command)].
Proof.
  intros Hpath Hglob Hopen Hlstat. apply String.eqb_neq in Hpath.
  unfold scanCmd, run, reject_if, filepath_WalkDir.
  rewrite Hpath, Hlstat.
  unfold bind at 1. unfold ret at 1.
  unfold bind at 1. unfold call at 1. rewrite Hglob.
  unfold bind at 1. unfold call at 1. rewrite Hopen. simpl.
  apply walkDir_visits.
Qed.

(** X5.  In a run of [scan] that got as far as the walk, the files read
    are a beginning of the files of the walk that the pattern matches, in
    the order of the walk, each once; the files upserted are the files
    read, but possibly for the last one; and when [scan] returns nil, every
    matched file of the walk was upserted, in that order. *)
Theorem scan_reads_and_upserts_in_walk_order
    (deps : RagDeps) (command : ScanFlags) (g : string -> bool)
    (db : gorm_DB) (root : node) :
  scan_path command <> "" ->
  glob_Compile deps (scan_glob command) = inr g ->
  OpenDB deps (scan_dsn command) = inr db ->
  Lstat deps (scan_path command) = inr root ->
  (exists rest,
      matched_paths g (visits (scan_path command) root)
      = read_paths (fst (run (scanCmd deps command))) ++ rest)
  /\ (exists last,
         read_paths (fst (run (scanCmd deps command)))
         = upserted_paths (fst (run (scanCmd deps command))) ++ last
         /\ List.length last <= 1)
  /\ (snd (run (scanCmd deps command)) = Returned tt ->
      upserted_paths (fst (run (scanCmd deps command)))
      = matched_paths g (visits (scan_path command) root)).
Proof.
  intros Hpath Hglob Hopen Hlstat.
  rewrite (scanCmd_walks deps command g db root Hpath Hglob Hopen Hlstat).
  destruct (scan_visits_invariant deps g (visits (scan_path command) root)
              (visits_have_entry root (scan_path command))
              [EvGlobCompile (scan_glob command); EvOpenDB (scan_dsn command)])
    as (evs & Hfst & _ & Hread & Hups & Hall & _).
  rewrite Hfst. simpl.
  repeat split; try assumption.
  intros Hr. apply Hall. exact Hr.
Qed.

Lemma scan_reads_and_upserts_in_walk_order_witness :
  upserted_paths (fst (run (scanCmd (deps_with (inr healthy_db) (inr clean_tree))
                              sample_scan)))
  = ["docs/a.chunks.json"; "docs/sub/c.chunks.json"].
Proof.
  assert (Hpath : scan_path sample_scan <> "") by discriminate.
  destruct (scan_reads_and_upserts_in_walk_order
              (deps_with (inr healthy_db) (inr clean_tree)) sample_scan
              chunks_json healthy_db clean_tree Hpath eq_refl eq_refl eq_refl)
    as (_ & _ & H).
  exact (H eq_refl).
Defined.

(** X6.  Whatever [scan] upserts is the document that decoding with
    unknown fields disallowed made of the content of a file of the walk
    that the pattern matches; the JSON of that content has no key outside
    the schema. *)
Theorem scan_upserts_strictly_decoded_documents
    (deps : RagDeps) (command : ScanFlags) (g : string -> bool)
    (db : gorm_DB) (root : node) (p : string) (doc : Document) :
  scan_path command <> "" ->
  glob_Compile deps (scan_glob command) = inr g ->
  OpenDB deps (scan_dsn command) = inr db ->
  Lstat deps (scan_path command) = inr root ->
  In (EvUpsertDocumentChunks p doc) (fst (run (scanCmd deps command))) ->
  exists name buf,
    In (p, Some (FileNode name (inr buf)), None) (visits (scan_path command) root)
    /\ g name = true
    /\ Decode deps (DisallowUnknownFields (json_NewDecoder buf)) = inr doc
    /\ forall j, json_lex deps buf = inr j ->
                 document_has_unknown_field (schema deps) j = false.
Proof.
  intros Hpath Hglob Hopen Hlstat.
  rewrite (scanCmd_walks deps command g db root Hpath Hglob Hopen Hlstat).
  destruct (scan_visits_invariant deps g (visits (scan_path command) root)
              (visits_have_entry root (scan_path command))
              [EvGlobCompile (scan_glob command); EvOpenDB (scan_dsn command)])
    as (evs & Hfst & _ & _ & _ & _ & Hfrom).
  rewrite Hfst. simpl.
  intros [H | [H | H]]; try discriminate.
  rewrite Forall_forall in Hfrom.
  destruct (Hfrom _ H) as (name & buf & Hin & Hg & Hdec).
  exists name, buf. repeat split; try assumption.
  intros j Hlex.
  destruct (document_has_unknown_field (schema deps) j) eqn:Hunknown; [|reflexivity].
  destruct (decode_document_unknown (schema deps) j Hunknown) as [e He].
  unfold Decode in Hdec. simpl in Hdec. rewrite Hlex, He in Hdec. discriminate.
Qed.

Lemma scan_upserts_strictly_decoded_documents_witness :
  exists name buf,
    In ("docs/a.chunks.json", Some (FileNode name (inr buf)), None)
       (visits "docs" sample_tree)
    /\ chunks_json name = true
    /\ Decode (sample_deps None) (DisallowUnknownFields (json_NewDecoder buf))
       = inr munich_doc
    /\ forall j, sample_lex buf = inr j ->
                 document_has_unknown_field spec_schema j = false.
Proof.
  apply (scan_upserts_strictly_decoded_documents (sample_deps None) sample_scan
           chunks_json healthy_db sample_tree "docs/a.chunks.json" munich_doc);
    try reflexivity; [discriminate|].
  vm_compute. tauto.
Defined.

(** X7.  [scan] gives up in the order of its preparation, each time with
    the error as it came and before the next step is taken: no path, then
    a pattern that does not compile (the database is not opened), then a
    database that does not open, then a root that cannot be looked at (no
    file is read). *)
Theorem scan_preparation_failures (deps : RagDeps) (command : ScanFlags) :
  (scan_path command = "" ->
   run (scanCmd deps command) = ([], Failed (errors_New "path is required")))
  /\ (forall e,
         scan_path command <> "" ->
         glob_Compile deps (scan_glob command) = inl e ->
         run (scanCmd deps command)
         = ([EvGlobCompile (scan_glob command)], Failed e))
  /\ (forall e g,
         scan_path command <> "" ->
         glob_Compile deps (scan_glob command) = inr g ->
         OpenDB deps (scan_dsn command) = inl e ->
         run (scanCmd deps command)
         = ([EvGlobCompile (scan_glob command); EvOpenDB (scan_dsn command)],
            Failed e))
  /\ (forall e g db,
         scan_path command <> "" ->
         glob_Compile deps (scan_glob command) = inr g ->
         OpenDB deps (scan_dsn command) = inr db ->
         Lstat deps (scan_path command) = inl e ->
         run (scanCmd deps command)
         = ([EvGlobCompile (scan_glob command); EvOpenDB (scan_dsn command)],
            Failed e)).
Proof.
  unfold scanCmd, run, reject_if, filepath_WalkDir.
  repeat split.
  - intros ->. reflexivity.
  - intros e Hpath Hglob. apply String.eqb_neq in Hpath.
    rewrite Hpath. unfold_action. rewrite Hglob. reflexivity.
  - intros e g Hpath Hglob Hopen. apply String.eqb_neq in Hpath.
    rewrite Hpath. unfold_action. rewrite Hglob. simpl. rewrite Hopen. reflexivity.
  - intros e g db Hpath Hglob Hopen Hlstat. apply String.eqb_neq in Hpath.
    rewrite Hpath, Hlstat. unfold_action. rewrite Hglob. simpl.
    rewrite Hopen. reflexivity.
Qed.

Lemma scan_preparation_failures_witness :
  run (scanCmd (deps_with (inl connection_refused) (inr clean_tree)) sample_scan)
  = ([EvGlobCompile "*.chunks.json"; EvOpenDB "postgres://rag"],
     Failed connection_refused).
Proof.
  destruct (scan_preparation_failures
              (deps_with (inl connection_refused) (inr clean_tree)) sample_scan)
    as (_ & _ & H & _).
  apply (H connection_refused chunks_json); [discriminate | reflexivity | reflexivity].
Defined.

(** X8.  [scan] never panics: the nil entry that the walk passes with an
    error on the root is not looked at, since the error is returned
    first.  With [main], a run of [scan] therefore always ends with
    status 0. *)
Theorem scan_never_panics (deps : RagDeps) (command : ScanFlags) :
  snd (run (scanCmd deps command)) <> Panicked
  /\ exit_status (main (snd (run (scanCmd deps command)))) = 0%Z.
Proof.
  assert (H : snd (run (scanCmd deps command)) <> Panicked).
  { destruct (String.eqb_spec (scan_path command) "") as [Hpath|Hpath].
    { unfold scanCmd, run, reject_if. rewrite Hpath. discriminate. }
    destruct (glob_Compile deps (scan_glob command)) as [e|g] eqn:Hglob.
    { apply String.eqb_neq in Hpath.
      unfold scanCmd, run, reject_if. rewrite Hpath. unfold_action.
      rewrite Hglob. discriminate. }
    destruct (OpenDB deps (scan_dsn command)) as [e|db] eqn:Hopen.
    { apply String.eqb_neq in Hpath.
      unfold scanCmd, run, reject_if. rewrite Hpath. unfold_action.
      rewrite Hglob. simpl. rewrite Hopen. discriminate. }
    destruct (Lstat deps (scan_path command)) as [e|root] eqn:Hlstat.
    { apply String.eqb_neq in Hpath.
      unfold scanCmd, run, reject_if, filepath_WalkDir.
      rewrite Hpath, Hlstat. unfold_action.
      rewrite Hglob. simpl. rewrite Hopen. discriminate. }
    rewrite (scanCmd_walks deps command g db root Hpath Hglob Hopen Hlstat).
    destruct (scan_visits_invariant deps g (visits (scan_path command) root)
                (visits_have_entry root (scan_path command))
                [EvGlobCompile (scan_glob command); EvOpenDB (scan_dsn command)])
      as (evs & _ & Hpanic & _).
    exact Hpanic. }
  split; [exact H|].
  destruct (snd (run (scanCmd deps command))); [reflexivity | reflexivity |].
  contradiction H. reflexivity.
Qed.

(** X9.  A directory that cannot be listed ends [scan]: when the calls
    before the report of the listing error returned nil, [scan] returns
    that error, and the entries of the directory, also those that were
    listed before the error, are not visited. *)
Theorem scan_aborts_on_unreadable_directory
    (deps : RagDeps) (command : ScanFlags) (g : string -> bool) (db : gorm_DB)
    (root : node) (pre post : list visit) (p : string) (d : node)
    (e : error) (tr1 : trace) :
  scan_path command <> "" ->
  glob_Compile deps (scan_glob command) = inr g ->
  OpenDB deps (scan_dsn command) = inr db ->
  Lstat deps (scan_path command) = inr root ->
  visits (scan_path command) root = pre ++ (p, Some d, Some e) :: post ->
  run_visits (scan_visit deps g) pre
    [EvGlobCompile (scan_glob command); EvOpenDB (scan_dsn command)]
  = (tr1, Returned tt) ->
  run (scanCmd deps command) = (tr1, Failed e).
Proof.
  intros Hpath Hglob Hopen Hlstat Hvisits Hpre.
  rewrite (scanCmd_walks deps command g db root Hpath Hglob Hopen Hlstat).
  rewrite Hvisits, run_visits_app. unfold bind at 1. rewrite Hpre.
  reflexivity.
Qed.

Lemma scan_aborts_on_unreadable_directory_witness :
  run (scanCmd (deps_with (inr healthy_db) (inr unreadable_tree)) sample_scan)
  = ([EvGlobCompile "*.chunks.json"; EvOpenDB "postgres://rag"],
     Failed (errors_New "permission denied")).
Proof.
  apply (scan_aborts_on_unreadable_directory
           (deps_with (inr healthy_db) (inr unreadable_tree)) sample_scan
           chunks_json healthy_db unreadable_tree
           [("docs", Some unreadable_tree, None)]
           [("docs/a.chunks.json", Some (FileNode "a.chunks.json" (inr "munich")), None)]
           "docs" unreadable_tree);
    try reflexivity.
  discriminate.
Defined.

(** ** serve, search, get *)

Lemma error_eqb_refl (e : error) : error_eqb e e = true.
Proof.
  induction e as [msg| |cause IH msg]; simpl.
  - apply String.eqb_refl.
  - reflexivity.
  - rewrite IH, String.eqb_refl. reflexivity.
Qed.

Lemma errors_Is_wrap_all (e : error) (msgs : list string) :
  errors_Is (wrap_all e msgs) e = true.
Proof.
  induction msgs as [|msg rest IH]; simpl.
  - destruct e; simpl; rewrite ?error_eqb_refl, ?String.eqb_refl; reflexivity.
  - rewrite IH. apply orb_true_r.
Qed.

(** X10.  [serve] returns an error in two cases only: the database did
    not open, and then [Start] is not called; or [Start] returned an error
    that is not [http.ErrServerClosed].  However many times the sentinel
    is wrapped, [serve] returns nil. *)
Theorem serve_fails_only_on_open_or_start (deps : RagDeps) (command : ServeFlags) :
  (forall e,
      OpenDB deps (serve_dsn command) = inl e ->
      run (serveCmd deps command) = ([EvOpenDB (serve_dsn command)], Failed e))
  /\ (forall e,
         snd (run (serveCmd deps command)) = Failed e ->
         OpenDB deps (serve_dsn command) = inl e
         \/ (Start deps (serve_bind command) = Some e
             /\ errors_Is e http_ErrServerClosed = false))
  /\ (forall db msgs,
         OpenDB deps (serve_dsn command) = inr db ->
         Start deps (serve_bind command)
         = Some (wrap_all http_ErrServerClosed msgs) ->
         run (serveCmd deps command)
         = ([EvOpenDB (serve_dsn command); EvStart (serve_bind command)],
            Returned tt)).
Proof.
  unfold serveCmd. unfold_action. repeat split.
  - intros e ->. reflexivity.
  - intros e. destruct (OpenDB deps (serve_dsn command)) as [e0|db]; simpl.
    + intros H. injection H as ->. left. reflexivity.
    + destruct (Start deps (serve_bind command)) as [e0|]; [|discriminate].
      destruct (errors_Is e0 http_ErrServerClosed) eqn:His; [discriminate|].
      intros H. injection H as ->. right. split; [reflexivity | exact His].
  - intros db msgs -> ->. simpl. rewrite errors_Is_wrap_all. reflexivity.
Qed.

Lemma serve_fails_only_on_open_or_start_witness :
  run (serveCmd (sample_deps (Some (wrap_all http_ErrServerClosed ["listen"; "serve"])))
         sample_serve)
  = ([EvOpenDB "postgres://rag"; EvStart ":5000"], Returned tt).
Proof.
  destruct (serve_fails_only_on_open_or_start
              (sample_deps (Some (wrap_all http_ErrServerClosed ["listen"; "serve"])))
              sample_serve) as (_ & _ & H).
  exact (H healthy_db ["listen"; "serve"] eq_refl eq_refl).
Defined.

(** X11.  [search] prints one line, the table of the chunks found in the
    order they were found, exactly when it returns nil, also when nothing
    was found; an empty query is refused before the database is opened,
    and an error of the database or of the query is returned with nothing
    printed. *)
Theorem search_prints_one_table_or_fails (deps : RagDeps) (command : SearchFlags) :
  (search_query command = "" ->
   run (searchCmd deps command) = ([], Failed (errors_New "query is required")))
  /\ (forall e,
         search_query command <> "" ->
         OpenDB deps (search_dsn command) = inl e ->
         run (searchCmd deps command) = ([EvOpenDB (search_dsn command)], Failed e))
  /\ (forall db e,
         search_query command <> "" ->
         OpenDB deps (search_dsn command) = inr db ->
         QueryDocuments deps (search_query command) (search_limit command) = inl e ->
         run (searchCmd deps command) = ([EvOpenDB (search_dsn command)], Failed e))
  /\ (forall db chunks,
         search_query command <> "" ->
         OpenDB deps (search_dsn command) = inr db ->
         QueryDocuments deps (search_query command) (search_limit command)
         = inr chunks ->
         run (searchCmd deps command)
         = ([EvOpenDB (search_dsn command);
             EvPrintln (table_Render deps
                          (map (fun c => (ID c, Chunk_RawDocument c, ChunkID c))
                               chunks))],
            Returned tt))
  /\ (printed (fst (run (searchCmd deps command))) <> [] ->
      snd (run (searchCmd deps command)) = Returned tt).
Proof.
  unfold searchCmd. unfold_action. repeat split.
  - intros ->. reflexivity.
  - intros e Hq ->. apply String.eqb_neq in Hq. rewrite Hq. reflexivity.
  - intros db e Hq -> Hquery. apply String.eqb_neq in Hq. rewrite Hq. simpl.
    rewrite Hquery. reflexivity.
  - intros db chunks Hq -> Hquery. apply String.eqb_neq in Hq. rewrite Hq. simpl.
    rewrite Hquery. reflexivity.
  - destruct (search_query command =? ""); simpl; [congruence|].
    destruct (OpenDB deps (search_dsn command)); simpl; [congruence|].
    destruct (QueryDocuments deps _ _); simpl; congruence.
Qed.

Lemma search_prints_one_table_or_fails_witness :
  run (searchCmd (deps_with (inr healthy_db) (inr clean_tree))
         (sample_search "Where is Munich?"))
  = ([EvOpenDB "postgres://rag"; EvPrintln "table"], Returned tt).
Proof.
  destruct (search_prints_one_table_or_fails
              (deps_with (inr healthy_db) (inr clean_tree))
              (sample_search "Where is Munich?")) as (_ & _ & _ & H & _).
  apply (H healthy_db []); [discriminate | reflexivity | reflexivity].
Defined.

(** X12.  How a run of [get] ends, with [main]: no id, or a database
    that does not open, is an error that [main] logs, with status 0; once
    the lookup is made, [main] logs nothing, whatever error the lookup
    returned: the status is 0 when the lookup gave a chunk and 2, by the
    panic, when it gave none. *)
Theorem get_process_end (deps : RagDeps) (command : GetFlags) :
  (get_id command = "" ->
   main (snd (run (getChunkCmd deps command)))
   = main (Failed (errors_New "id is required")))
  /\ (forall e,
         get_id command <> "" ->
         OpenDB deps (get_dsn command) = inl e ->
         main (snd (run (getChunkCmd deps command))) = main (Failed e))
  /\ (forall db,
         get_id command <> "" ->
         OpenDB deps (get_dsn command) = inr db ->
         logged (main (snd (run (getChunkCmd deps command)))) = []
         /\ exit_status (main (snd (run (getChunkCmd deps command))))
            = match fst (GetDocumentChunk deps (get_id command)) with
              | Some _ => 0%Z
              | None => 2%Z
              end).
Proof.
  unfold getChunkCmd. unfold_action. repeat split.
  - intros ->. reflexivity.
  - intros e Hid ->. apply String.eqb_neq in Hid. rewrite Hid. reflexivity.
  - apply String.eqb_neq in H. rewrite H, H0. simpl.
    destruct (GetDocumentChunk deps (get_id command)) as [[c|] err]; reflexivity.
  - apply String.eqb_neq in H. rewrite H, H0. simpl.
    destruct (GetDocumentChunk deps (get_id command)) as [[c|] err]; reflexivity.
Qed.

Lemma get_process_end_witness :
  logged (main (snd (run (getChunkCmd (sample_deps None) (sample_get "zz"))))) = []
  /\ exit_status (main (snd (run (getChunkCmd (sample_deps None) (sample_get "zz")))))
     = 2%Z.
Proof.
  destruct (get_process_end (sample_deps None) (sample_get "zz")) as (_ & _ & H).
  apply (H healthy_db); [discriminate | reflexivity].
Defined.

(** ** generate-script *)

(** *** Suffixes *)

Lemma string_length_app (s t : string) :
  String.length (s ++ t)%string = String.length s + String.length t.
Proof. induction s as [|c s IH]; simpl; [reflexivity | rewrite IH; reflexivity]. Qed.

Lemma substring_whole (s : string) : substring 0 (String.length s) s = s.
Proof. induction s as [|c s IH]; simpl; [reflexivity | rewrite IH; reflexivity]. Qed.

Lemma substring_app_right (pre suffix : string) :
  substring (String.length pre) (String.length suffix) (pre ++ suffix)%string = suffix.
Proof.
  induction pre as [|c pre IH]; simpl.
  - apply substring_whole.
  - exact IH.
Qed.

Lemma substring_split (s : string) :
  forall n, n <= String.length s ->
            s = (substring 0 n s ++ substring n (String.length s - n) s)%string.
Proof.
  induction s as [|c s IH]; intros n Hn.
  - destruct n; reflexivity.
  - destruct n as [|n]; simpl.
    + rewrite substring_whole. reflexivity.
    + simpl in Hn. rewrite <- IH by lia. reflexivity.
Qed.

(** [HasSuffix] answers [true] exactly for the strings that end with the
    suffix. *)
Lemma HasSuffix_spec (s suffix : string) :
  HasSuffix s suffix = true <-> exists pre, s = (pre ++ suffix)%string.
Proof.
  unfold HasSuffix. rewrite andb_true_iff, Nat.leb_le, String.eqb_eq. split.
  - intros [Hlen Hsub].
    exists (substring 0 (String.length s - String.length suffix) s).
    pose proof (substring_split s (String.length s - String.length suffix))
      as Hsplit.
    replace (String.length s - (String.length s - String.length suffix))
      with (String.length suffix) in Hsplit by lia.
    rewrite Hsub in Hsplit. apply Hsplit. lia.
  - intros [pre ->]. rewrite string_length_app. split; [lia|].
    replace (String.length pre + String.length suffix - String.length suffix)
      with (String.length pre) by lia.
    apply substring_app_right.
Qed.

(** *** Actions over a state, and the walk *)

Lemma st_bind_ret_tt {St} (c : st_action St unit) (st : St) :
  (c ~;; st_ret tt) st = c st.
Proof.
  unfold st_bind, st_ret. destruct (c st) as [st' [[]| |]]; reflexivity.
Qed.

Lemma st_bind_assoc {St A B C} (c : st_action St A) (k : A -> st_action St B)
    (h : B -> st_action St C) (st : St) :
  st_bind (st_bind c k) h st = st_bind c (fun a => st_bind (k a) h) st.
Proof.
  unfold st_bind. destruct (c st) as [st' [a| |]]; reflexivity.
Qed.

Lemma st_bind_ext {St A B} (c : st_action St A) (k k' : A -> st_action St B) (st : St) :
  (forall a st', k a st' = k' a st') -> st_bind c k st = st_bind c k' st.
Proof.
  intros H. unfold st_bind. destruct (c st) as [st' [a| |]]; auto.
Qed.

Section StateWalk.
Variable St : Type.
Variable fn : string -> option node -> option error -> st_action St unit.

Lemma st_run_visits_app (vs ws : list visit) (st : St) :
  st_run_visits fn (vs ++ ws) st = (st_run_visits fn vs ~;; st_run_visits fn ws) st.
Proof.
  revert st. induction vs as [|[[path d] err] vs IH]; intros st.
  - reflexivity.
  - simpl. rewrite st_bind_assoc. apply st_bind_ext. intros _ st'. apply IH.
Qed.

Lemma st_walk_entries_visits (path : string) (entries : list node) :
  Forall (fun d => forall p st, st_walkDir fn p d st = st_run_visits fn (visits p d) st)
         entries ->
  forall st,
    st_walk_entries (st_walkDir fn) path entries st
    = st_run_visits fn (flat_map (fun d1 => visits (Join path (Name d1)) d1) entries) st.
Proof.
  induction 1 as [|d1 rest Hd1 Hrest IH]; intros st.
  - reflexivity.
  - simpl. rewrite st_run_visits_app. unfold st_bind.
    rewrite Hd1.
    destruct (st_run_visits fn (visits (Join path (Name d1)) d1) st)
      as [st' [[]| |]]; auto.
Qed.

(** The walk over a state makes the same calls as the walk of [scan]:
    those of [visits], in order, up to the first that does not return
    nil. *)
Lemma st_walkDir_visits (d : node) :
  forall path st, st_walkDir fn path d st = st_run_visits fn (visits path d) st.
Proof.
  induction d as [name content | name entries readdir_err IH]
    using node_induction; intros path st.
  - simpl. rewrite st_bind_ret_tt. reflexivity.
  - simpl. apply st_bind_ext. intros _ st1.
    destruct readdir_err as [e|]; simpl.
    + apply st_bind_ext. intros _ st2. apply st_walk_entries_visits. exact IH.
    + unfold st_bind at 1, st_ret. apply st_walk_entries_visits. exact IH.
Qed.
End StateWalk.

(** *** The function of the walk *)

Lemma selected_spec (path name : string) (content : error + string) :
  selected (path, Some (FileNode name content), None)
  = negb (negb (HasSuffix path ".pdf")
          || HasSuffix path "_layout.pdf"
          || HasSuffix path "_origin.pdf"
          || HasSuffix path "_span.pdf").
Proof.
  unfold selected.
  destruct (HasSuffix path ".pdf"), (HasSuffix path "_layout.pdf"),
    (HasSuffix path "_origin.pdf"), (HasSuffix path "_span.pdf"); reflexivity.
Qed.

(** X13.  The function of the walk leaves alone, writing nothing and
    returning nil: directories, paths that do not end with [.pdf], and
    paths that end with [_layout.pdf], [_origin.pdf] or [_span.pdf]. *)
Theorem generate_skips_what_is_not_a_source_pdf
    (deps : ScriptDeps) (w : writer) (toolPath : string) (withPueue : bool)
    (path : string) (d : node) (st : script_state) :
  (IsDir d = true
   \/ (forall stem, path <> (stem ++ ".pdf")%string)
   \/ (exists stem, path = (stem ++ "_layout.pdf")%string
                    \/ path = (stem ++ "_origin.pdf")%string
                    \/ path = (stem ++ "_span.pdf")%string)) ->
  generate_visit deps w toolPath withPueue path (Some d) None st
  = (st, Returned tt).
Proof.
  intros H. unfold generate_visit.
  destruct (IsDir d) eqn:Hdir; [reflexivity|].
  destruct H as [H | [H | (stem & H)]]; [discriminate | |].
  - assert (Hpdf : HasSuffix path ".pdf" = false).
    { destruct (HasSuffix path ".pdf") eqn:E; [|reflexivity].
      apply HasSuffix_spec in E. destruct E as [stem E].
      contradiction (H stem). }
    rewrite Hpdf. reflexivity.
  - assert (Hany : HasSuffix path "_layout.pdf" = true
                   \/ HasSuffix path "_origin.pdf" = true
                   \/ HasSuffix path "_span.pdf" = true).
    { destruct H as [H | [H | H]];
        [left | right; left | right; right];
        apply HasSuffix_spec; exists stem; exact H. }
    destruct Hany as [E | [E | E]]; rewrite E;
      rewrite ?orb_true_r; reflexivity.
Qed.

Lemma generate_skips_what_is_not_a_source_pdf_witness :
  generate_visit script_deps_no_cwd Stdout "" true "pdfs/a_layout.pdf"
    (Some (FileNode "a_layout.pdf" (inr ""))) None nothing_done
  = (nothing_done, Returned tt).
Proof.
  apply generate_skips_what_is_not_a_source_pdf.
  right. right. exists "pdfs/a". left. reflexivity.
Defined.

(** X14.  For a file that is selected, a path that cannot be made
    absolute is a panic, not an error returned: nothing is written for the
    file, and with [main] the process ends with status 2 and nothing
    logged. *)
Theorem generate_panics_without_absolute_path
    (deps : ScriptDeps) (w : writer) (toolPath : string) (withPueue : bool)
    (path name : string) (content : error + string) (e : error)
    (st : script_state) :
  selected (path, Some (FileNode name content), None) = true ->
  filepath_Abs deps path = inl e ->
  generate_visit deps w toolPath withPueue path
    (Some (FileNode name content)) None st = (st, Panicked)
  /\ main (snd (generate_visit deps w toolPath withPueue path
                  (Some (FileNode name content)) None st))
     = {| logged := []; exit_status := 2 |}.
Proof.
  intros Hsel Habs. rewrite selected_spec in Hsel.
  apply negb_true_iff in Hsel.
  assert (H : generate_visit deps w toolPath withPueue path
                (Some (FileNode name content)) None st = (st, Panicked)).
  { unfold generate_visit. simpl. rewrite Hsel, Habs. reflexivity. }
  rewrite H. split; reflexivity.
Qed.

Lemma generate_panics_without_absolute_path_witness :
  generate_visit script_deps_no_cwd Stdout "" false "pdfs/a.pdf"
    (Some (FileNode "a.pdf" (inr ""))) None nothing_done
  = (nothing_done, Panicked).
Proof.
  destruct (generate_panics_without_absolute_path script_deps_no_cwd Stdout ""
              false "pdfs/a.pdf" "a.pdf" (inr "")
              (errors_New "getwd: no such file or directory") nothing_done
              eq_refl eq_refl) as (H & _).
  exact H.
Defined.

(** *** Writing within an expected script *)

Lemma writes_within_ret : writes_within (st_ret tt) [].
Proof.
  intros st. exists [], []. simpl. rewrite app_nil_r. auto.
Qed.

Lemma writes_within_stop (c : st_action script_state unit) (expected : list string) :
  (forall st, fst (c st) = st /\ snd (c st) <> Returned tt) ->
  writes_within c expected.
Proof.
  intros H st. destruct (H st) as [Hfst Hsnd].
  exists [], expected. rewrite Hfst, app_nil_r.
  repeat split. intros Hr. contradiction.
Qed.

Lemma writes_within_write (deps : ScriptDeps) (w : writer) (text : string) :
  writes_within (write deps w text) [text].
Proof.
  intros st. unfold write.
  destruct (Write deps w (written st) text) as [e|]; simpl.
  - exists [], [text]. rewrite app_nil_r. repeat split. discriminate.
  - exists [text], []. auto.
Qed.

Lemma writes_within_bind (c1 c2 : st_action script_state unit)
    (expected1 expected2 : list string) :
  writes_within c1 expected1 ->
  writes_within c2 expected2 ->
  writes_within (c1 ~;; c2) (expected1 ++ expected2).
Proof.
  intros H1 H2 st.
  destruct (H1 st) as (done1 & rest1 & -> & Hc1 & Hw1 & Hr1).
  unfold st_bind.
  destruct (c1 st) as [st1 [[]|e|]]; simpl in *.
  - rewrite (Hr1 eq_refl), app_nil_r.
    destruct (H2 st1) as (done2 & rest2 & -> & Hc2 & Hw2 & Hr2).
    exists (done1 ++ done2), rest2.
    rewrite Hc2, Hw2, Hc1, Hw1, !app_assoc. auto.
  - exists done1, (rest1 ++ expected2). rewrite <- app_assoc.
    repeat split; try assumption. discriminate.
  - exists done1, (rest1 ++ expected2). rewrite <- app_assoc.
    repeat split; try assumption. discriminate.
Qed.

Lemma writes_within_when (deps : ScriptDeps) (w : writer) (b : bool) (text : string) :
  writes_within (if b then write deps w text else st_ret tt)
                (if b then [text] else []).
Proof.
  destruct b; [apply writes_within_write | apply writes_within_ret].
Qed.

Section GenerateWalk.
Variable deps : ScriptDeps.
Variable w : writer.
Variable toolPath : string.
Variable withPueue : bool.

Lemma generate_visit_writes_within (p : string) (d : option node) (err : option error) :
  (err = None -> d <> None) ->
  writes_within (generate_visit deps w toolPath withPueue p d err)
                (visit_writes deps toolPath withPueue (p, d, err)).
Proof.
  intros Hd. destruct err as [e|].
  { apply writes_within_stop. intros st. split; [reflexivity | discriminate]. }
  destruct d as [[name content | name entries rerr]|];
    [| |contradiction (Hd eq_refl); reflexivity].
  2: { apply writes_within_ret. }
  unfold visit_writes. rewrite selected_spec.
  unfold generate_visit. cbn [IsDir visit_path fst].
  destruct (negb (HasSuffix p ".pdf") || HasSuffix p "_layout.pdf"
            || HasSuffix p "_origin.pdf" || HasSuffix p "_span.pdf").
  { apply writes_within_ret. }
  cbn [negb].
  destruct (filepath_Abs deps p) as [e|abs].
  { apply writes_within_stop. intros st. split; [reflexivity | discriminate]. }
  unfold command_writes.
  apply writes_within_bind; [apply writes_within_when|].
  apply writes_within_bind; [apply writes_within_write|].
  apply writes_within_when.
Qed.

Lemma generate_visits_write_within (vs : list visit) :
  Forall (fun v : visit => snd v = None -> snd (fst v) <> None) vs ->
  writes_within (st_run_visits (generate_visit deps w toolPath withPueue) vs)
                (flat_map (visit_writes deps toolPath withPueue) vs).
Proof.
  induction 1 as [|[[p d] err] vs Hd Hvs IH].
  - apply writes_within_ret.
  - cbn [st_run_visits flat_map].
    apply writes_within_bind; [|exact IH].
    apply generate_visit_writes_within. exact Hd.
Qed.

(** With a writer that never fails, a walk that is clean returns nil. *)
Lemma generate_visits_succeed (vs : list visit) :
  (forall before text, Write deps w before text = None) ->
  walk_is_clean deps vs ->
  forall st,
    snd (st_run_visits (generate_visit deps w toolPath withPueue) vs st)
    = Returned tt.
Proof.
  intros Hwrite. induction 1 as [|[[p d] err] vs (Herr & Hd & Habs) Hvs IH];
    intros st.
  - reflexivity.
  - simpl in Herr, Hd. subst err.
    assert (Hone : exists st1,
               generate_visit deps w toolPath withPueue p d None st
               = (st1, Returned tt)).
    { destruct d as [[name content | name entries rerr]|];
        [| eexists; reflexivity | contradiction].
      specialize Habs. rewrite selected_spec in Habs.
      unfold generate_visit. cbn [IsDir].
      destruct (negb (HasSuffix p ".pdf") || HasSuffix p "_layout.pdf"
                || HasSuffix p "_origin.pdf" || HasSuffix p "_span.pdf").
      { eexists; reflexivity. }
      destruct (Habs eq_refl) as [abs Habs']. unfold visit_path in Habs'.
      simpl in Habs'. rewrite Habs'.
      unfold st_bind, write, st_ret.
      destruct withPueue; simpl; rewrite ?Hwrite; simpl; rewrite ?Hwrite; simpl;
        rewrite ?Hwrite; eexists; reflexivity. }
    destruct Hone as [st1 Hone].
    cbn [st_run_visits]. unfold st_bind. rewrite Hone. apply IH.
Qed.
End GenerateWalk.

Lemma writes_within_ext (c c' : st_action script_state unit) (expected : list string) :
  (forall st, c st = c' st) -> writes_within c' expected -> writes_within c expected.
Proof.
  intros Hext H st. rewrite Hext. apply H.
Qed.

Lemma st_WalkDir_calls (deps : ScriptDeps) (command : GenerateFlags)
    (fn : string -> option node -> option error -> st_action script_state unit)
    (st : script_state) :
  st_WalkDir (script_Lstat deps (generate_path command)) (generate_path command) fn st
  = st_run_visits fn (walk_calls deps command) st.
Proof.
  unfold st_WalkDir, walk_calls.
  destruct (script_Lstat deps (generate_path command)) as [e|root].
  - simpl. rewrite st_bind_ret_tt. reflexivity.
  - apply st_walkDir_visits.
Qed.

Lemma walk_calls_have_entry (deps : ScriptDeps) (command : GenerateFlags) :
  Forall (fun v : visit => snd v = None -> snd (fst v) <> None)
         (walk_calls deps command).
Proof.
  unfold walk_calls.
  destruct (script_Lstat deps (generate_path command)) as [e|root].
  - repeat constructor. discriminate.
  - eapply Forall_impl; [|apply visits_have_entry]. auto.
Qed.

Lemma generate_body_writes_within (deps : ScriptDeps) (command : GenerateFlags)
    (w : writer) :
  writes_within (generate_body deps command w)
                (script_of deps command (walk_calls deps command)).
Proof.
  unfold generate_body, script_of, script_header.
  rewrite <- app_assoc.
  apply writes_within_bind; [apply writes_within_when|].
  apply writes_within_bind; [apply writes_within_write|].
  apply writes_within_bind; [|apply writes_within_write].
  eapply writes_within_ext; [intros st; apply st_WalkDir_calls|].
  apply generate_visits_write_within. apply walk_calls_have_entry.
Qed.

Lemma generateScriptCmd_body (deps : ScriptDeps) (command : GenerateFlags) :
  generateScriptCmd deps command
  = if generate_path command =? "" then st_fail (errors_New "path is required")
    else st_bind (if output command =? "-" then st_ret Stdout
                  else create deps (output command))
                 (generate_body deps command).
Proof. reflexivity. Qed.

(** X15.  Whatever fails and wherever, what [generate-script] has written
    is a beginning of one script: the header, then for each selected file
    of the walk, in order, its [mineru] command (between the two [pueue]
    pieces when asked for), then a newline; and it is the whole of it when
    the command returns nil.  The chunking command is never part of it,
    and without [--with-pueue] nothing is written between the commands of
    two files. *)
Theorem generate_script_follows_the_walk
    (deps : ScriptDeps) (command : GenerateFlags) :
  generate_path command <> "" ->
  exists done rest,
    script_of deps command (walk_calls deps command) = done ++ rest
    /\ written (fst (generateScriptCmd deps command nothing_done)) = done
    /\ (snd (generateScriptCmd deps command nothing_done) = Returned tt ->
        rest = []).
Proof.
  intros Hpath. apply String.eqb_neq in Hpath.
  rewrite generateScriptCmd_body, Hpath.
  pose proof (generate_body_writes_within deps command) as Hbody.
  unfold st_bind.
  destruct (output command =? "-").
  - unfold st_ret.
    destruct (Hbody Stdout nothing_done) as (done & rest & H & _ & Hw & Hr).
    exists done, rest. auto.
  - unfold create. destruct (os_Create deps (output command)) as [e|]; simpl.
    + exists [], (script_of deps command (walk_calls deps command)).
      repeat split. discriminate.
    + destruct (Hbody (File (output command))
                  {| created := [output command]; written := [] |})
        as (done & rest & H & _ & Hw & Hr).
      exists done, rest. auto.
Qed.

Lemma generate_script_follows_the_walk_witness :
  exists done rest,
    script_of script_deps_disk_full (sample_generate false)
      (walk_calls script_deps_disk_full (sample_generate false)) = done ++ rest
    /\ written (fst (generateScriptCmd script_deps_disk_full (sample_generate false)
                       nothing_done)) = done
    /\ (snd (generateScriptCmd script_deps_disk_full (sample_generate false)
               nothing_done) = Returned tt -> rest = []).
Proof.
  apply generate_script_follows_the_walk. discriminate.
Defined.

Lemma generate_body_succeeds (deps : ScriptDeps) (command : GenerateFlags)
    (w : writer) :
  (forall before text, Write deps w before text = None) ->
  walk_is_clean deps (walk_calls deps command) ->
  forall st, snd (generate_body deps command w st) = Returned tt.
Proof.
  intros Hwrite Hclean st.
  assert (Hw : forall text st0,
             write deps w text st0
             = ({| created := created st0; written := written st0 ++ [text] |},
                Returned tt)).
  { intros text st0. unfold write. rewrite Hwrite. reflexivity. }
  unfold generate_body, st_bind.
  assert (Hhead : exists st1,
             (if shebang command
              then write deps w ("#!/bin/bash" ++ newline)%string
              else st_ret tt) st = (st1, Returned tt)).
  { destruct (shebang command); [rewrite Hw|]; eexists; reflexivity. }
  destruct Hhead as [st1 ->]. rewrite Hw, st_WalkDir_calls.
  pose proof (generate_visits_succeed deps w (rag_tools command)
                (with_pueue command) (walk_calls deps command) Hwrite Hclean
                {| created := created st1;
                   written := written st1 ++ [("trap 'exit' INT" ++ newline)%string] |})
    as Hwalk.
  destruct (st_run_visits _ (walk_calls deps command) _) as [st2 r].
  simpl in Hwalk. subst r. rewrite Hw. reflexivity.
Qed.

(** X16.  When the output can be created, the writer never fails, the
    root can be looked at, every directory can be listed and every selected
    file has an absolute path, [generate-script] returns nil and has
    written the whole script. *)
Theorem generate_writes_whole_script (deps : ScriptDeps) (command : GenerateFlags) :
  generate_path command <> "" ->
  (output command <> "-" -> os_Create deps (output command) = None) ->
  (forall w before text, Write deps w before text = None) ->
  walk_is_clean deps (walk_calls deps command) ->
  snd (generateScriptCmd deps command nothing_done) = Returned tt
  /\ written (fst (generateScriptCmd deps command nothing_done))
     = script_of deps command (walk_calls deps command).
Proof.
  intros Hpath Hcreate Hwrite Hclean.
  apply String.eqb_neq in Hpath.
  rewrite generateScriptCmd_body, Hpath. unfold st_bind.
  assert (Hbody : forall w st,
             written st = [] ->
             snd (generate_body deps command w st) = Returned tt
             /\ written (fst (generate_body deps command w st))
                = script_of deps command (walk_calls deps command)).
  { intros w st Hempty.
    pose proof (generate_body_succeeds deps command w (Hwrite w) Hclean st) as Hr.
    split; [exact Hr|].
    destruct (generate_body_writes_within deps command w st)
      as (done & rest & Hscript & _ & Hdone & Hrest).
    rewrite Hscript, (Hrest Hr), app_nil_r, Hdone, Hempty. reflexivity. }
  destruct (String.eqb_spec (output command) "-") as [Hout|Hout].
  - unfold st_ret. apply Hbody. reflexivity.
  - unfold create. rewrite (Hcreate Hout). apply Hbody. reflexivity.
Qed.

Lemma generate_writes_whole_script_witness :
  snd (generateScriptCmd sample_script_deps (sample_generate_to "run.sh") nothing_done)
  = Returned tt
  /\ written (fst (generateScriptCmd sample_script_deps
                     (sample_generate_to "run.sh") nothing_done))
     = script_of sample_script_deps (sample_generate_to "run.sh")
         (walk_calls sample_script_deps (sample_generate_to "run.sh")).
Proof.
  apply generate_writes_whole_script.
  - discriminate.
  - reflexivity.
  - reflexivity.
  - repeat (constructor;
            [repeat split; [discriminate | intros _; eexists; reflexivity] | ]).
    constructor.
Defined.

(** The script of the example, without [--with-pueue]: the two commands
    follow each other with nothing between them. *)
Example generate_example_script :
  String.concat "" (written (fst (generateScriptCmd sample_script_deps
                                    (sample_generate false) nothing_done)))
  = ("#!/bin/bash" ++ newline ++ "trap 'exit' INT" ++ newline
     ++ "uv run mineru --source modelscope -p '/work/pdfs/a.pdf' -o '/work/pdfs'"
     ++ "uv run mineru --source modelscope -p '/work/pdfs/b.pdf' -o '/work/pdfs'"
     ++ newline)%string.
Proof. reflexivity. Qed.

(** X17.  [generate-script] creates a file only for an output other than
    ["-"], and only that one, after the path was checked: with no path
    nothing is created or written, and when the file cannot be created the
    error is returned with nothing written. *)
Theorem generate_creates_only_the_output_file
    (deps : ScriptDeps) (command : GenerateFlags) :
  (generate_path command = "" ->
   generateScriptCmd deps command nothing_done
   = (nothing_done, Failed (errors_New "path is required")))
  /\ (forall e,
         generate_path command <> "" ->
         output command <> "-" ->
         os_Create deps (output command) = Some e ->
         generateScriptCmd deps command nothing_done = (nothing_done, Failed e))
  /\ created (fst (generateScriptCmd deps command nothing_done))
     = if (generate_path command =? "") || (output command =? "-") then []
       else match os_Create deps (output command) with
            | None => [output command]
            | Some _ => []
            end.
Proof.
  rewrite generateScriptCmd_body. repeat split.
  - intros ->. reflexivity.
  - intros e Hpath Hout Hcreate.
    apply String.eqb_neq in Hpath, Hout. rewrite Hpath.
    unfold st_bind, create. rewrite Hout, Hcreate. reflexivity.
  - destruct (generate_path command =? ""); [reflexivity|].
    unfold st_bind, create, st_ret.
    destruct (output command =? "-"); simpl.
    + destruct (generate_body_writes_within deps command Stdout nothing_done)
        as (done & rest & _ & Hc & _).
      exact Hc.
    + destruct (os_Create deps (output command)) as [e|]; [reflexivity|].
      destruct (generate_body_writes_within deps command (File (output command))
                  {| created := [] ++ [output command]; written := [] |})
        as (done & rest & _ & Hc & _).
      exact Hc.
Qed.

Lemma generate_creates_only_the_output_file_witness :
  generateScriptCmd script_deps_no_create (sample_generate_to "run.sh") nothing_done
  = (nothing_done, Failed disk_full).
Proof.
  destruct (generate_creates_only_the_output_file script_deps_no_create
              (sample_generate_to "run.sh")) as (_ & H & _).
  apply H; [discriminate | discriminate | reflexivity].
Defined.
